(** * pyciemss: parameter interventions and optimisation under uncertainty

    A shallow embedding of [pyciemss/interruptions.py] and
    [pyciemss/ouu/ouu.py].  Tensors and NumPy scalars are exact rationals
    ([Q]); one-dimensional arrays are lists; Python exceptions are the left
    summand of a result type; code that mutates shared objects or global
    state is written in a state-and-exception monad over that state. *)

From Stdlib Require Import ZArith QArith Qminmax Qround Lqa Lia List Bool Sorted.
From stdpp Require Import gmap strings.
Import ListNotations.

Local Open Scope string_scope.
Local Open Scope list_scope.

(** ** Exceptions and effects *)

Inductive Exn : Type :=
| IndexError
| ValueError
| AttributeError (name : string)
| RuntimeError (msg : string).

(** [inl e]: the call raised [e]; [inr a]: it returned [a]. *)
Definition Result (A : Type) : Type := (Exn + A)%type.

(** A computation over a mutable state [S] that may raise. The state that
    an exception leaves behind is kept: Python does not roll back. *)
Definition Eff (S A : Type) : Type := S -> Result A * S.

Definition ret {S A} (a : A) : Eff S A := fun s => (inr a, s).

Definition raise {S A} (e : Exn) : Eff S A := fun s => (inl e, s).

Definition bind {S A B} (m : Eff S A) (k : A -> Eff S B) : Eff S B :=
  fun s => match m s with
           | (inl e, s') => (inl e, s')
           | (inr a, s') => k a s'
           end.

Definition lift {S A} (r : Result A) : Eff S A := fun s => (r, s).

Definition modify {S} (f : S -> S) : Eff S unit := fun s => (inr tt, f s).

Definition gets {S A} (f : S -> A) : Eff S A := fun s => (inr (f s), s).

Notation "'let!' x ':=' m 'in' k" := (bind m (fun x => k))
  (at level 10, x name, m at level 100, k at level 200, only parsing).

(** A [for] loop over a list, run for its effects. *)
Fixpoint for_each {S A} (items : list A) (body : A -> Eff S unit)
  : Eff S unit :=
  match items with
  | [] => ret tt
  | item :: rest => let! _ := body item in for_each rest body
  end.

(** ** interruptions.py *)

Module interruptions.

(** A scalar tensor. *)
Notation Tensor := Q.

(** [State[torch.Tensor]]: the named state variables of a simulation. *)
Notation State := (gmap string Tensor).

(** An object is its attribute dictionary; the heap maps references to
    objects, so that two holders of one reference see one object. *)
Notation Object := (gmap string Tensor).
Notation loc := positive.
Notation Heap := (gmap loc Object).

Definition deref (h : Heap) (l : loc) : Object := default ∅ (h !! l).

(** [getattr(obj, name)] without a default raises when the attribute is
    missing. *)
Definition getattr (l : loc) (name : string) : Eff Heap Tensor :=
  fun h => match deref h l !! name with
           | Some v => (inr v, h)
           | None => (inl (AttributeError name), h)
           end.

(** [setattr(obj, name, value)] creates or overwrites the attribute of the
    object itself. *)
Definition setattr (l : loc) (name : string) (v : Tensor) : Eff Heap unit :=
  modify (fun h => <[l := <[name := v]> (deref h l)]> h).

(** A bound method: the object it is bound to and the function it runs on
    that object's attributes (here the right-hand side of the dynamics). *)
Record MethodType : Type := {
  __self__ : loc;
  __func__ : Object -> Tensor -> State -> State
}.

(** Calling a bound method reads the attributes its object has now. *)
Definition call_method (m : MethodType) (t : Tensor) (s : State)
  : Eff Heap State :=
  gets (fun h => __func__ m (deref h (__self__ m)) t s).

(** chirho's [Intervention]: a value, or a function of the old value. *)
Inductive Intervention : Type :=
| Constant (v : Tensor)
| Callable (f : Tensor -> Tensor).

(** Modelled from the spec: chirho's [intervene] is an external
    collaborator; section 4.2 gives it as "intervention(old) if
    intervention is callable, else the constant". *)
Definition intervene (obs : Tensor) (act : Intervention) : Tensor :=
  match act with
  | Constant v => v
  | Callable f => f obs
  end.

(** chirho's events: a fixed time, or the zero crossing of a function of
    time and state. *)
Inductive Event : Type :=
| StaticEvent (time : Tensor)
| ZeroEvent (event_fn : Tensor -> State -> Tensor).

(** What [@on(event)] makes of a callback: a handler that, while it is
    entered, runs the callback when its event fires. *)
Record Handler : Type := on {
  event : Event;
  callback : MethodType -> State -> Eff Heap (MethodType * State)
}.

(** The [for ... in intervention.items()] loop of the callback. A dict is
    given by its items in iteration order. *)
Fixpoint callback_loop (items : list (string * Intervention)) (l : loc)
  : Eff Heap unit :=
  match items with
  | [] => ret tt
  | (parameter_name, intervention_assignment) :: rest =>
      let! old_parameter := getattr l parameter_name in
      let new_parameter := intervene old_parameter intervention_assignment in
      let! _ := setattr l parameter_name new_parameter in
      callback_loop rest l
  end.

Definition _ParameterIntervention (ev : Event)
    (intervention : list (string * Intervention)) : Handler :=
  on ev (fun dynamics state =>
           let dynamics_obj := __self__ dynamics in
           let! _ := callback_loop intervention dynamics_obj in
           ret (dynamics, state)).

Definition StaticParameterIntervention (time : Tensor)
    (intervention : list (string * Intervention)) : Handler :=
  _ParameterIntervention (StaticEvent time) intervention.

Definition DynamicParameterIntervention
    (event_fn : Tensor -> State -> Tensor)
    (intervention : list (string * Intervention)) : Handler :=
  _ParameterIntervention (ZeroEvent event_fn) intervention.

End interruptions.

(** ** NumPy on one-dimensional arrays *)

(** A float that may be "not a number". *)
Inductive float : Type :=
| nan
| num (q : Q).

(** The numeric routines of the C library that NumPy and SciPy call; they
    are not rational functions and stay parameters. *)
Class Libm : Type := {
  sqrt : Q -> Q;
  exp : Q -> Q
}.

(** A pseudo-random generator state, given by the unit-interval variates it
    will produce from now on. *)
Notation RandomState := (nat -> Q).

Module np.

(** An array-like argument: a Python scalar or a one-dimensional array. *)
Inductive array_like : Type :=
| Scalar (v : Q)
| Array1 (a : list Q).

Definition atleast_1d (x : array_like) : list Q :=
  match x with
  | Scalar v => [v]
  | Array1 a => a
  end.

(** An elementwise binary operation under NumPy's broadcasting rule: equal
    lengths pair up, a length-one operand is stretched, anything else is
    "operands could not be broadcast together". *)
Definition broadcast2 (f : Q -> Q -> Q) (a b : list Q) : Result (list Q) :=
  if (length a =? length b)%nat then inr (zip_with f a b)
  else if (length b =? 1)%nat then inr (map (fun u => f u (hd 0%Q b)) a)
  else if (length a =? 1)%nat then inr (map (f (hd 0%Q a)) b)
  else inl ValueError.


Definition add : list Q -> list Q -> Result (list Q) := broadcast2 Qplus.
Definition subtract : list Q -> list Q -> Result (list Q) := broadcast2 Qminus.
Definition maximum : list Q -> list Q -> Result (list Q) := broadcast2 Qmax.
Definition minimum : list Q -> list Q -> Result (list Q) := broadcast2 Qmin.

(** [np.clip(a, a_min, a_max)] is [minimum(a_max, maximum(a, a_min))]. *)
Definition clip (a a_min a_max : list Q) : Result (list Q) :=
  match maximum a a_min with
  | inl e => inl e
  | inr lifted => minimum a_max lifted
  end.

Definition sum (a : list Q) : Q := fold_right Qplus 0%Q a.

(** [np.linalg.norm] of a vector: the Euclidean norm. *)
Definition linalg_norm `{Libm} (v : list Q) : Q :=
  sqrt (sum (map (fun c => c * c)%Q v)).

(** The number of entries, as a number. *)
Definition size (a : list Q) : Q := inject_Z (Z.of_nat (length a)).

(** [np.mean]; the mean of an empty array is [nan]. *)
Definition mean (a : list Q) : float :=
  match a with
  | [] => nan
  | _ => num (sum a / size a)
  end.

(** [np.random.uniform(low, high, size)] on the global generator: each
    entry is [low + (high - low) * u] for the next variate [u]. *)
Definition random_uniform (low high : Q) (size : nat)
  : Eff RandomState (list Q) :=
  fun g => (inr (map (fun i => low + (high - low) * g i)%Q (seq 0 size)),
            fun i => g (size + i)%nat).

End np.

(** ** ouu.py: RandomDisplacementBounds *)

(** The Python values a caller can pass for an optional number. *)
Inductive PyObj : Type :=
| PyNone
| PyBool (b : bool)
| PyInt (z : Z)
| PyFloat (q : Q).

(** Truth value testing, as [if stepsize:] does it. *)
Definition truthy (o : PyObj) : bool :=
  match o with
  | PyNone => false
  | PyBool b => b
  | PyInt z => negb (z =? 0)%Z
  | PyFloat q => negb (Qeq_bool q 0)
  end.

(** The number a Python value stands for in arithmetic. *)
Definition as_number (o : PyObj) : Q :=
  match o with
  | PyNone => 0
  | PyBool b => if b then 1 else 0
  | PyInt z => inject_Z z
  | PyFloat q => q
  end.

Module RandomDisplacementBounds.

Record t : Type := {
  xmin : list Q;
  xmax : list Q;
  stepsize : Q
}.

Section methods.
Context `{Libm}.

Definition __init__ (xmin xmax : list Q) (stepsize : PyObj) : Result t :=
  if truthy stepsize then
    inr {| xmin := xmin; xmax := xmax; stepsize := as_number stepsize |}
  else
    (* stepsize is set to 30% of longest euclidean distance *)
    match np.subtract xmax xmin with
    | inl e => inl e
    | inr extent =>
        inr {| xmin := xmin; xmax := xmax;
               stepsize := (3 # 10) * np.linalg_norm extent |}
    end.

End methods.

Definition __call__ (self : t) (x : list Q) : Eff RandomState (list Q) :=
  let! noise :=
    np.random_uniform (- stepsize self) (stepsize self) (length x) in
  let! moved := lift (np.add x noise) in
  lift (np.clip moved (xmin self) (xmax self)).

End RandomDisplacementBounds.

(** ** ouu/risk_measures.py *)

Module risk_measures.

(** How many sample values are at most [v]. *)
Definition count_le (dataset : list Q) (v : Q) : nat :=
  length (List.filter (fun u => Qle_bool u v) dataset).

Definition minimum_of (a : list Q) : option Q :=
  match a with
  | [] => None
  | v :: rest => Some (fold_right Qmin v rest)
  end.

(** The sample values [v] such that at least the fraction [p] of the sample
    is at most [v]. *)
Definition quantile_candidates (dataset : list Q) (p : Q) : list Q :=
  List.filter
    (fun v => Qle_bool (p * np.size dataset)
                       (inject_Z (Z.of_nat (count_le dataset v))))
    dataset.

(** The empirical [p]-quantile: the least sample value [v] such that at
    least the fraction [p] of the sample is at most [v]. *)
Definition empirical_quantile (dataset : list Q) (p : Q) : option Q :=
  minimum_of (quantile_candidates dataset p).

(** The sample values at or above the cut [q]. *)
Definition upper_tail (dataset : list Q) (q : Q) : list Q :=
  List.filter (fun v => Qle_bool q v) dataset.

(** The mean of the sample values at or above the cut [q]. *)
Definition tail_mean (dataset : list Q) (q : Q) : float :=
  np.mean (upper_tail dataset q).

(** Modelled from the spec: [pyciemss/ouu/risk_measures.py], which holds
    [alpha_superquantile], is not among the sources. Section 4.4 gives it
    as the mean of the sample values at or above an empirical quantile,
    the upper tail average, which becomes the sample maximum as alpha
    tends to 1 and the sample mean as alpha tends to 0. The cut is
    therefore the quantile that leaves the fraction [1 - alpha] of the
    sample above it, which is the empirical quantile of level [alpha];
    the section's "(1 - alpha)-quantile" names the cut by its upper tail
    mass. An empty sample has no mean: the result is [nan]. *)
Definition alpha_superquantile (dataset : list Q) (alpha : Q) : float :=
  match empirical_quantile dataset alpha with
  | None => nan
  | Some q => tail_mean dataset q
  end.

(** Sorting in ascending order, by insertion. *)
Fixpoint insert_sorted (v : Q) (a : list Q) : list Q :=
  match a with
  | [] => [v]
  | u :: rest =>
      if Qle_bool v u then v :: a else u :: insert_sorted v rest
  end.

Definition sort (a : list Q) : list Q := fold_right insert_sorted [] a.

(** The value at position [h] of a sorted array, interpolated linearly
    between the entries on either side of the position. *)
Definition interpolate (sorted : list Q) (h : Q) : Q :=
  let i := Z.to_nat (Qfloor h) in
  let below := nth i sorted 0%Q in
  let above := nth (S i) sorted below in
  (below + (h - inject_Z (Qfloor h)) * (above - below))%Q.

(** The quantile as [np.quantile] computes it by default: the value at
    position [p * (n - 1)] of the sorted sample, interpolated linearly. *)
Definition linear_quantile (dataset : list Q) (p : Q) : option Q :=
  match dataset with
  | [] => None
  | _ => Some (interpolate (sort dataset) (p * (np.size dataset - 1))%Q)
  end.

(** The superquantile with NumPy's quantile for the cut. *)
Definition interpolated_superquantile (dataset : list Q) (alpha : Q) : float :=
  match linear_quantile dataset alpha with
  | None => nan
  | Some q => tail_mean dataset q
  end.

(** The other reading of section 4.4, with the cut at the empirical
    quantile of level [1 - alpha], kept for comparison. *)
Definition lower_cut_superquantile (dataset : list Q) (alpha : Q) : float :=
  match empirical_quantile dataset (1 - alpha) with
  | None => nan
  | Some q => tail_mean dataset q
  end.

End risk_measures.

(** ** The collaborators of ouu.py: torch, pyro and chirho *)

Module torch.

(** Seeding a generator fixes the variates it will produce. *)
Class Seeding : Type := { manual_seed : Z -> RandomState }.

(** [torch.arange(start, end, step)]: the values [start + i * step] below
    [end], of which there are [ceil((end - start) / step)]. *)
Definition arange (start end_ step : Q) : Result (list Q) :=
  if Qeq_bool step 0 then inl (RuntimeError "step must be nonzero")
  else if Qle_bool 0 ((end_ - start) / step) then
    let size := Z.to_nat (Qceiling ((end_ - start) / step)) in
    inr (map (fun i => start + inject_Z (Z.of_nat i) * step)%Q (seq 0 size))
  else inl (RuntimeError "bounds inconsistent with step sign").

End torch.

Module pyro.

(** The effect handlers that can be active around a model call: the ODE
    solver of chirho, an interruption built by [interruptions.py], and the
    replay of values drawn from a guide. *)
Inductive Messenger : Type :=
| TorchDiffEq (method : string) (options : gmap string Q)
| Interruption (h : interruptions.Handler)
| Replay (latents : gmap string Q).

(** One call of the model: the handlers active around it, innermost
    first, and its arguments. *)
Record Simulation : Type := {
  active : list Messenger;
  sim_start_time : Q;
  sim_end_time : Q;
  sim_logging_times : list Q;
  sim_is_traced : bool
}.

(** The global state that an evaluation touches: the generator, the stack
    of active handlers (innermost first), and the record of the model
    calls made so far. *)
Record World : Type := {
  rng : RandomState;
  stack : list Messenger;
  simulations : list Simulation
}.

Notation Trajectory := (gmap string (list Q)).

(** A stochastic model: from its arguments, the handlers active around the
    call and the generator, a named trajectory or an exception. The
    sampling machinery draws "given a fixed random seed" (section 1): what a
    call yields is a function of these and of nothing else. *)
Definition Model : Type :=
  Q -> Q -> list Q -> bool ->
  list Messenger -> RandomState -> Result Trajectory * RandomState.

(** A guide: from the generator, values for the latent variables. *)
Definition Guide : Type :=
  RandomState -> Result (gmap string Q) * RandomState.

(** [pyro.set_rng_seed] *)
Definition set_rng_seed `{torch.Seeding} (rng_seed : Z) : Eff World unit :=
  modify (fun w => {| rng := torch.manual_seed rng_seed;
                      stack := stack w;
                      simulations := simulations w |}).

Definition enter_context (m : Messenger) : Eff World unit :=
  modify (fun w => {| rng := rng w;
                      stack := m :: stack w;
                      simulations := simulations w |}).

(** Leaving contexts until [depth] of them remain. *)
Definition unwind (depth : nat) (w : World) : World :=
  {| rng := rng w;
     stack := skipn (length (stack w) - depth) (stack w);
     simulations := simulations w |}.

(** [with m: body]: the context is left on success and on failure. *)
Definition with_ {A} (m : Messenger) (body : Eff World A) : Eff World A :=
  fun w =>
    let (r, w') := (let! _ := enter_context m in body) w in
    (r, unwind (length (stack w)) w').

(** [with contextlib.ExitStack() as stack: body]: on the way out, every
    context that [body] entered through the stack is left, last first. *)
Definition ExitStack {A} (body : Eff World A) : Eff World A :=
  fun w => let (r, w') := body w in (r, unwind (length (stack w)) w').

(** Calling the model under the handlers that are active now. *)
Definition call_model (model : Model) (start_time end_time : Q)
    (logging_times : list Q) (is_traced : bool) : Eff World Trajectory :=
  fun w =>
    let (r, g) :=
      model start_time end_time logging_times is_traced (stack w) (rng w) in
    (r, {| rng := g;
           stack := stack w;
           simulations :=
             simulations w ++
             [{| active := stack w;
                 sim_start_time := start_time;
                 sim_end_time := end_time;
                 sim_logging_times := logging_times;
                 sim_is_traced := is_traced |}] |}).

Definition run_guide (g : Guide) : Eff World (gmap string Q) :=
  fun w =>
    let (r, g') := g (rng w) in
    (r, {| rng := g'; stack := stack w; simulations := simulations w |}).

(** Modelled from the spec: [pyro.infer.Predictive] is an external
    collaborator. Sections 4.3 and 6 give it as running the zero-argument
    stochastic program once per requested sample, one after the other, and
    collecting the named trajectories; with a guide, each run replays the
    values the guide draws for it. *)
Fixpoint Predictive (program : Eff World Trajectory) (guide : option Guide)
    (num_samples : nat) : Eff World (list Trajectory) :=
  match num_samples with
  | O => ret []
  | S remaining =>
      let! sample :=
        match guide with
        | None => program
        | Some g =>
            let! latents := run_guide g in
            with_ (Replay latents) program
        end in
      let! others := Predictive program guide remaining in
      ret (sample :: others)
  end.

End pyro.

(** ** ouu.py: computeRisk *)

Module computeRisk.

Import interruptions.

Notation Samples := (list pyro.Trajectory).

Record t : Type := {
  model : pyro.Model;
  interventions : list (Tensor * string);
  qoi : Samples -> Result (list Q);
  risk_measure : list Q -> Result float;
  num_samples : nat;
  start_time : Q;
  end_time : Q;
  guide : option pyro.Guide;
  solver_method : string;
  solver_options : gmap string Q;
  logging_times : list Q
}.

Definition default_risk_measure : list Q -> Result float :=
  fun z => inr (risk_measures.alpha_superquantile z (95 # 100)).
Definition default_num_samples : nat := 1000.

Definition __init__ (model : pyro.Model)
    (interventions : list (Tensor * string))
    (qoi : Samples -> Result (list Q)) (end_time logging_step_size : Q)
    (start_time : Q) (risk_measure : list Q -> Result float)
    (num_samples : nat) (guide : option pyro.Guide)
    (solver_method : string) (solver_options : gmap string Q)
  : Result t :=
  match torch.arange (start_time + logging_step_size) end_time
                     logging_step_size with
  | inl e => inl e
  | inr times =>
      inr {| model := model;
             interventions := interventions;
             qoi := qoi;
             risk_measure := risk_measure;
             num_samples := num_samples;
             start_time := start_time;
             end_time := end_time;
             guide := guide;
             solver_method := solver_method;
             solver_options := solver_options;
             logging_times := times |}
  end.

(** The loop that creates the intervention handlers: one per item of the
    [interventions] dict, in iteration order; [x[count]] raises
    [IndexError] past the end of [x]. *)
Fixpoint create_handlers (items : list (Tensor * string)) (x : list Q)
    (static_parameter_intervention_handlers : list Handler) (count : nat)
  : Result (list Handler) :=
  match items with
  | [] => inr static_parameter_intervention_handlers
  | (time, param) :: rest =>
      match x !! count with
      | None => inl IndexError
      | Some x_count =>
          create_handlers rest x
            (static_parameter_intervention_handlers
             ++ [StaticParameterIntervention time [(param, Constant x_count)]])
            (count + 1)
      end
  end.

Definition wrapped_model (self : t) (handlers : list Handler)
  : Eff pyro.World pyro.Trajectory :=
  pyro.with_ (pyro.TorchDiffEq (solver_method self) (solver_options self))
    (pyro.ExitStack
       (let! _ := for_each handlers
                    (fun handler =>
                       pyro.enter_context (pyro.Interruption handler)) in
        pyro.call_model (model self) (start_time self) (end_time self)
                        (logging_times self) true)).

Section methods.
Context `{torch.Seeding}.

(** Perform forward uncertainty propagation. *)
Definition propagate_uncertainty (self : t) (x : np.array_like)
  : Eff pyro.World Samples :=
  let! _ := pyro.set_rng_seed 0 in
  let x := np.atleast_1d x in
  (* Create intervention handlers *)
  let! static_parameter_intervention_handlers :=
    lift (create_handlers (interventions self) x [] 0) in
  (* Sample from intervened model *)
  pyro.Predictive (wrapped_model self static_parameter_intervention_handlers)
                  (guide self) (num_samples self).

Definition __call__ (self : t) (x : np.array_like) : Eff pyro.World float :=
  (* Apply intervention and perform forward uncertainty propagation *)
  let! samples := propagate_uncertainty self x in
  (* Compute quanity of interest *)
  let! sample_qoi := lift (qoi self samples) in
  (* Estimate risk *)
  lift (risk_measure self sample_qoi).

End methods.

End computeRisk.

(** ** The collaborators of solveOUU: tqdm and scipy.optimize *)

Module tqdm.

(** A progress bar: its total and its count so far. *)
Record t : Type := { total : Z; n : Z }.

Definition update (k : Z) : Eff t unit :=
  modify (fun bar => {| total := total bar; n := n bar + k |}).

End tqdm.

Module scipy.

(** A constraint dict: its ["type"] and its ["fun"]. *)
Record Constraint : Type := {
  ctype : string;
  cfun : list Q -> list Q
}.

(** The values found in the keyword dicts handed to the optimizers. *)
Inductive PyVal : Type :=
| VNone
| VBool (b : bool)
| VInt (z : Z)
| VNum (q : Q)
| VStr (s : string)
| VConstraints (cs : list Constraint)
| VCallback (f : list Q -> Eff tqdm.t unit)
| VDict (d : gmap string PyVal).

(** [d.update(other)] changes [d] in place and returns [None]. *)
Definition dict_update (other : gmap string PyVal)
  : Eff (gmap string PyVal) PyVal :=
  fun d => (inr VNone, other ∪ d).

Record OptimizeResult : Type := {
  x : list Q;
  fun_ : Q;
  nfev : Z;
  nit : Z
}.

(** The state that a run of the optimizer touches: NumPy's global
    generator (from which the step generator draws), the optimizer's own
    generator (for the acceptance test) and the progress bar. *)
Record World : Type := {
  np_random : RandomState;
  bh_random : RandomState;
  pbar : tqdm.t
}.

Definition on_np_random {A} (m : Eff RandomState A) : Eff World A :=
  fun w => let (r, g) := m (np_random w) in
           (r, {| np_random := g; bh_random := bh_random w; pbar := pbar w |}).

Definition on_pbar {A} (m : Eff tqdm.t A) : Eff World A :=
  fun w => let (r, bar) := m (pbar w) in
           (r, {| np_random := np_random w; bh_random := bh_random w;
                  pbar := bar |}).

Definition next_uniform : Eff World Q :=
  fun w => (inr (bh_random w 0%nat),
            {| np_random := np_random w;
               bh_random := fun i => bh_random w (S i);
               pbar := pbar w |}).

(** [scipy.optimize.minimize] is a parameter: from the objective, the
    starting point and the keyword dict it gives the result of the local
    search and the points it passed to the callback, in order. *)
Class Minimizer : Type := {
  minimize : (list Q -> Q) -> list Q -> gmap string PyVal ->
             OptimizeResult * list (list Q)
}.

Section basinhopping.
Context `{Libm} `{Minimizer}.

(** A local search, with the callback of the keyword dict run on each
    point the search reports. *)
Definition local_search (func : list Q -> Q) (start : list Q)
    (minimizer_kwargs : gmap string PyVal) : Eff World OptimizeResult :=
  let (res, reported) := minimize func start minimizer_kwargs in
  let! _ :=
    match minimizer_kwargs !! "callback" with
    | Some (VCallback f) => for_each reported (fun xk => on_pbar (f xk))
    | _ => ret tt
    end in
  ret res.

(** The search state of basin hopping. *)
Record Runner : Type := {
  current : OptimizeResult;
  lowest : OptimizeResult;
  take_step : RandomDisplacementBounds.t;
  nstep : nat;
  naccept : nat;
  evaluations : Z
}.

(** Every [interval] steps the step size of the step generator is
    rescaled towards an acceptance rate of one half. *)
Definition adapt_stepsize (interval : nat) (r : Runner) : Runner :=
  let steps := S (nstep r) in
  if (steps mod interval =? 0)%nat then
    let accept_rate := (inject_Z (Z.of_nat (naccept r))
                        / inject_Z (Z.of_nat steps))%Q in
    let old := RandomDisplacementBounds.stepsize (take_step r) in
    let new := if Qle_bool accept_rate (1 # 2)
               then (old * (9 # 10))%Q else (old / (9 # 10))%Q in
    {| current := current r; lowest := lowest r;
       take_step :=
         {| RandomDisplacementBounds.xmin :=
              RandomDisplacementBounds.xmin (take_step r);
            RandomDisplacementBounds.xmax :=
              RandomDisplacementBounds.xmax (take_step r);
            RandomDisplacementBounds.stepsize := new |};
       nstep := 0; naccept := 0; evaluations := evaluations r |}
  else
    {| current := current r; lowest := lowest r; take_step := take_step r;
       nstep := steps; naccept := naccept r;
       evaluations := evaluations r |}.

(** The Metropolis test at temperature [T]: an improvement is always
    accepted, a worsening by [delta] with probability [exp(-delta/T)]. *)
Definition metropolis (T : Q) (new old : OptimizeResult) : Eff World bool :=
  let w := exp (Qmin 0 (- (fun_ new - fun_ old) / T))%Q in
  let! rand := next_uniform in
  ret (Qle_bool rand w).

Definition one_cycle (func : list Q -> Q) (T : Q)
    (minimizer_kwargs : gmap string PyVal) (interval : nat) (r : Runner)
  : Eff World Runner :=
  let r := adapt_stepsize interval r in
  let! x_after_step :=
    on_np_random
      (RandomDisplacementBounds.__call__ (take_step r) (x (current r))) in
  let! minres := local_search func x_after_step minimizer_kwargs in
  let! accept := metropolis T minres (current r) in
  ret {| current := if accept then minres else current r;
         lowest := if accept && negb (Qle_bool (fun_ (lowest r)) (fun_ minres))
                   then minres else lowest r;
         take_step := take_step r;
         nstep := nstep r;
         naccept := if accept then S (naccept r) else naccept r;
         evaluations := (evaluations r + nfev minres)%Z |}.

Fixpoint cycles (func : list Q -> Q) (T : Q)
    (minimizer_kwargs : gmap string PyVal) (interval : nat)
    (niter : nat) (r : Runner) : Eff World Runner :=
  match niter with
  | O => ret r
  | S remaining =>
      let! r := one_cycle func T minimizer_kwargs interval r in
      cycles func T minimizer_kwargs interval remaining r
  end.

(** Modelled from the spec: [scipy.optimize.basinhopping] is an external
    collaborator. Section 4.5 gives it: a local minimization from the
    initial guess; then, [niter] times, a random perturbation of the
    current point by the step generator, a local minimization from the
    perturbed point, and a Metropolis test that decides whether the new
    local minimum becomes the current point; the best local minimum
    found is returned with its objective value and the evaluation
    count. *)
Definition basinhopping (func : list Q -> Q) (x0 : list Q) (T : Q)
    (niter : Z) (minimizer_kwargs : gmap string PyVal)
    (take_step : RandomDisplacementBounds.t) (interval : nat)
    (disp : bool) : Eff World OptimizeResult :=
  let! minres := local_search func x0 minimizer_kwargs in
  let! r := cycles func T minimizer_kwargs interval (Z.to_nat niter)
              {| current := minres; lowest := minres;
                 take_step := take_step; nstep := 0; naccept := 0;
                 evaluations := nfev minres |} in
  ret {| x := x (lowest r); fun_ := fun_ (lowest r);
         nfev := evaluations r; nit := Z.max 0 niter |}.

End basinhopping.

End scipy.

(** ** ouu.py: solveOUU *)

Module solveOUU.

Import scipy.

(** The objective is a function of the point: what an objective built on
    [computeRisk] does to the generators on the way is not followed here. *)
Record t : Type := {
  x0 : list Q;
  objfun : list Q -> Q;
  constraints : list Constraint;
  minimizer_kwargs : PyVal;
  optimizer_algorithm : string;
  maxiter : Z;
  maxfeval : Z;
  u_bounds : list (list Q)
}.

(** The defaults of the arguments of [__init__]. The default keyword dict
    is one object shared by all calls that do not pass their own. *)
Definition default_minimizer_kwargs : gmap string PyVal :=
  {[ "method" := VStr "COBYLA";
     "tol" := VNum (1 # 100000);
     "options" := VDict {[ "disp" := VBool false; "maxiter" := VInt 10 ]} ]}.
Definition default_optimizer_algorithm : string := "basinhopping".
Definition default_maxfeval : Z := 100.
Definition default_maxiter : Z := 100.
Definition default_u_bounds : list (list Q) := [[0%Q]; [1%Q]].

(** The constructor runs on the caller's keyword dict, which it changes in
    place. [np.squeeze(np.array([x0]))] is the point [x0] itself, as a
    one-dimensional array. *)
Definition __init__ (x0 : list Q) (objfun : list Q -> Q)
    (constraints : list Constraint) (optimizer_algorithm : string)
    (maxfeval maxiter : Z) (u_bounds : list (list Q))
  : Eff (gmap string PyVal) t :=
  let! updated := dict_update {[ "constraints" := VConstraints constraints ]} in
  ret {| x0 := x0;
         objfun := objfun;
         constraints := constraints;
         minimizer_kwargs := updated;
         optimizer_algorithm := optimizer_algorithm;
         maxiter := maxiter;
         maxfeval := maxfeval;
         u_bounds := u_bounds |}.

(** Row [i] of a two-dimensional array, [a[i, :]]. *)
Definition row (a : list (list Q)) (i : nat) : Result (list Q) :=
  match a !! i with
  | Some r => inr r
  | None => inl IndexError
  end.

Definition update_progress (xk : list Q) : Eff tqdm.t unit := tqdm.update 1.

Section methods.
Context `{Libm} `{Minimizer}.

(** The keyword dict that [solve] builds for the local minimizer. *)
Definition solve_minimizer_kwargs (self : t) : Result (gmap string PyVal) :=
  match row (u_bounds self) 1 with
  | inl e => inl e
  | inr upper =>
  match row (u_bounds self) 0 with
  | inl e => inl e
  | inr lower =>
  match np.subtract upper lower with
  | inl e => inl e
  | inr extent =>
      (* rhobeg is set to 10% of longest euclidean distance *)
      inr ({[ "constraints" := VConstraints (constraints self);
              "method" := VStr "COBYLA";
              "tol" := VNum (1 # 100000);
              "callback" := VCallback update_progress;
              "options" :=
                VDict {[ "rhobeg" := VNum ((1 # 10) * np.linalg_norm extent);
                         "disp" := VBool false;
                         "maxiter" := VInt (maxfeval self);
                         "catol" := VNum (1 # 100000) ]} ]}
           : gmap string PyVal)
  end end end.

Definition solve (self : t) : Eff World OptimizeResult :=
  let! _ := on_pbar (modify (fun _ =>
              {| tqdm.total := maxfeval self * (maxiter self + 1);
                 tqdm.n := 0 |})) in
  (* wrapper around SciPy optimizer(s) *)
  let! minimizer_kwargs := lift (solve_minimizer_kwargs self) in
  let! lower := lift (row (u_bounds self) 0) in
  let! upper := lift (row (u_bounds self) 1) in
  let! take_step :=
    lift (RandomDisplacementBounds.__init__ lower upper PyNone) in
  let! result :=
    basinhopping (objfun self) (x0 self) (3 # 2) (maxiter self)
                 minimizer_kwargs take_step 2 false in
  ret result.

End methods.

End solveOUU.

(** ** Concrete collaborators and data, for the examples *)

Module examples.

(** A square root on the rationals that is exact on squares. *)
Definition sqrt_floor (q : Q) : Q :=
  Z.sqrt (Qnum q * Zpos (Qden q)) # Qden q.

(** A rational stand-in for the exponential, used below zero only. *)
Definition exp_rational (q : Q) : Q :=
  if Qle_bool q 0 then (1 / (1 - q))%Q else (1 + q)%Q.

Definition libm : Libm := {| sqrt := sqrt_floor; exp := exp_rational |}.

(** A small congruential generator. *)
Definition lcg (seed : Z) : RandomState :=
  fun i => ((seed * 31 + Z.of_nat i * 17 + 7) mod 100)%Z # 100.

Definition seeding : torch.Seeding := {| torch.manual_seed := lcg |}.

(** The unit box in one dimension. *)
Definition unit_box : RandomDisplacementBounds.t :=
  {| RandomDisplacementBounds.xmin := [0%Q];
     RandomDisplacementBounds.xmax := [1%Q];
     RandomDisplacementBounds.stepsize := 3 # 10 |}.

(** A model object with two parameters, and the bound method of its
    dynamics. *)
Definition sir_heap : gmap positive (gmap string Q) :=
  {[ 1%positive := {[ "beta" := 1 # 2; "gamma" := 1 # 5 ]} ]}.

Definition sir_dynamics : interruptions.MethodType :=
  {| interruptions.__self__ := 1%positive;
     interruptions.__func__ := fun params t state =>
       {[ "I" := (default 0 (params !! "beta") * default 0 (state !! "I")
                  - default 0 (params !! "gamma") * default 0 (state !! "I"))%Q ]} |}.

Definition sir_intervention : list (string * interruptions.Intervention) :=
  [("beta", interruptions.Constant 1%Q);
   ("gamma", interruptions.Callable (fun g => g + 1)%Q)].

(** A stochastic model for trying the propagator: the interruptions
    that are active and fall before the end time are applied to the model
    object, and the infected count grows at the resulting rate from a
    random start. *)
Definition apply_interruptions (active : list pyro.Messenger) (end_time : Q)
    (h : gmap positive (gmap string Q)) : gmap positive (gmap string Q) :=
  fold_right
    (fun m h =>
       match m with
       | pyro.Interruption handler =>
           match interruptions.event handler with
           | interruptions.StaticEvent time =>
               if Qle_bool time end_time
               then snd (interruptions.callback handler sir_dynamics ∅ h)
               else h
           | interruptions.ZeroEvent _ => h
           end
       | _ => h
       end)
    h active.

Definition growth_model : pyro.Model :=
  fun start_time end_time logging_times is_traced active g =>
    let h := apply_interruptions active end_time sir_heap in
    let beta := default 0%Q (interruptions.deref h 1%positive !! "beta") in
    (inr {[ "I" := map (fun t => beta * (t - start_time) + g 0%nat)%Q
                       logging_times ]},
     fun i => g (S i)).

(** The largest infected count of each sample. *)
Definition peak_infected (samples : list (gmap string (list Q)))
  : Result (list Q) :=
  inr (map (fun tr => fold_right Qmax 0%Q (default [] (tr !! "I"))) samples).

(** A propagator with one intervention, on ["beta"] at time 0.1. *)
Definition risk : computeRisk.t :=
  {| computeRisk.model := growth_model;
     computeRisk.interventions := [((1 # 10)%Q, "beta")];
     computeRisk.qoi := peak_infected;
     computeRisk.risk_measure := computeRisk.default_risk_measure;
     computeRisk.num_samples := 3;
     computeRisk.start_time := 0;
     computeRisk.end_time := 3;
     computeRisk.guide := None;
     computeRisk.solver_method := "dopri5";
     computeRisk.solver_options := ∅;
     computeRisk.logging_times := [1; 2]%Q |}.

Definition world0 : pyro.World :=
  {| pyro.rng := lcg 42; pyro.stack := []; pyro.simulations := [] |}.

(** A derivative-free local search to stand for COBYLA. A point is
    feasible when every component of every constraint function is
    non-negative there. The search looks at the neighbours of the current
    point, one step [rho] along each axis; it moves to a feasible neighbour
    that improves on the objective when there is one, and halves the step
    otherwise, until the step is below the tolerance or the budget is
    spent. It reports each point it moves to. *)
Definition feasible (cs : list scipy.Constraint) (x : list Q) : bool :=
  forallb (fun c => forallb (Qle_bool 0) (scipy.cfun c x)) cs.

Definition neighbours (x : list Q) (rho : Q) : list (list Q) :=
  flat_map (fun i => [alter (fun v => Qred (v + rho)) i x;
                      alter (fun v => Qred (v - rho)) i x])
           (seq 0 (length x)).

Definition better (f : list Q -> Q) (cs : list scipy.Constraint)
    (best candidate : list Q) : list Q :=
  if feasible cs candidate && negb (Qle_bool (f best) (f candidate))
  then candidate else best.

Fixpoint compass (f : list Q -> Q) (cs : list scipy.Constraint) (tol : Q)
    (budget : nat) (rho : Q) (x : list Q) (reported : list (list Q))
  : list Q * list (list Q) :=
  match budget with
  | O => (x, reported)
  | S budget =>
      let best := fold_left (better f cs) (neighbours x rho) x in
      if Qle_bool (f x) (f best) then
        if Qle_bool rho tol then (x, reported)
        else compass f cs tol budget (Qred (rho / 2)) x reported
      else compass f cs tol budget rho best (reported ++ [best])
  end.

Definition compass_minimize (f : list Q -> Q) (start : list Q)
    (kwargs : gmap string scipy.PyVal)
  : scipy.OptimizeResult * list (list Q) :=
  let cs := match kwargs !! "constraints" with
            | Some (scipy.VConstraints cs) => cs
            | _ => []
            end in
  let tol := match kwargs !! "tol" with
             | Some (scipy.VNum tol) => tol
             | _ => 1 # 10000
             end in
  let options := match kwargs !! "options" with
                 | Some (scipy.VDict options) => options
                 | _ => ∅
                 end in
  let rhobeg := match options !! "rhobeg" with
                | Some (scipy.VNum rho) => rho
                | _ => 1%Q
                end in
  let budget := match options !! "maxiter" with
                | Some (scipy.VInt k) => Z.to_nat k
                | _ => 1000
                end in
  let (found, reported) := compass f cs tol budget rhobeg start [] in
  ({| scipy.x := found; scipy.fun_ := f found;
      scipy.nfev := Z.of_nat budget;
      scipy.nit := Z.of_nat (length reported) |}, reported).

Definition minimizer : scipy.Minimizer :=
  {| scipy.minimize := compass_minimize |}.

(** The squared distance to 3 along the first axis: its minimum lies
    outside the unit box. *)
Definition away (x : list Q) : Q :=
  ((hd 0 x - 3) * (hd 0 x - 3))%Q.

(** The constraints that say "within the unit box". *)
Definition unit_box_constraints : list scipy.Constraint :=
  [{| scipy.ctype := "ineq"; scipy.cfun := fun x => zip_with Qminus x [0%Q] |};
   {| scipy.ctype := "ineq"; scipy.cfun := fun x => zip_with Qminus [1%Q] x |}].

(** Two policy optimizers on the unit box, from its midpoint: one whose
    constraints say nothing of the box, one whose constraints enforce it. *)
Definition unconstrained : solveOUU.t :=
  {| solveOUU.x0 := [1 # 2]%Q;
     solveOUU.objfun := away;
     solveOUU.constraints := [];
     solveOUU.minimizer_kwargs := scipy.VNone;
     solveOUU.optimizer_algorithm := solveOUU.default_optimizer_algorithm;
     solveOUU.maxiter := 2;
     solveOUU.maxfeval := 60;
     solveOUU.u_bounds := solveOUU.default_u_bounds |}.

Definition boxed : solveOUU.t :=
  {| solveOUU.x0 := [1 # 2]%Q;
     solveOUU.objfun := away;
     solveOUU.constraints := unit_box_constraints;
     solveOUU.minimizer_kwargs := scipy.VNone;
     solveOUU.optimizer_algorithm := solveOUU.default_optimizer_algorithm;
     solveOUU.maxiter := 2;
     solveOUU.maxfeval := 60;
     solveOUU.u_bounds := solveOUU.default_u_bounds |}.

Definition optimizer_world0 : scipy.World :=
  {| scipy.np_random := lcg 1;
     scipy.bh_random := lcg 2;
     scipy.pbar := {| tqdm.total := 0; tqdm.n := 0 |} |}.

End examples.

(** ** The vocabulary of the properties of computeRisk *)

Section propagator_vocabulary.
Import interruptions pyro computeRisk.

(** The handler that pairs one [(time, parameter)] entry with one value. *)
Definition handler_for (entry : Tensor * string) (v : Q) : Handler :=
  StaticParameterIntervention (fst entry) [(snd entry, Constant v)].

(** The handler stack inside [wrapped_model], innermost first: all the
    handlers, the last entered on top, then the solver, then what was
    active before. *)
Definition under (self : t) (hs : list Handler) (base : list Messenger)
  : list Messenger :=
  rev (map Interruption hs)
  ++ TorchDiffEq (solver_method self) (solver_options self) :: base.

(** The model call that the propagator makes under a given stack. *)
Definition simulation_of (self : t) (active : list Messenger) : Simulation :=
  {| active := active;
     sim_start_time := start_time self;
     sim_end_time := end_time self;
     sim_logging_times := logging_times self;
     sim_is_traced := true |}.

(** A model call made by the propagator: under the solver and all the
    handlers, with the propagator's own arguments; beneath them, at most
    the replay of one draw of the guide. *)
Definition simulated_under (self : t) (hs : list Handler)
    (base : list Messenger) (s : Simulation) : Prop :=
  exists replay : list Messenger,
    s = simulation_of self (under self hs (replay ++ base))
    /\ (replay = [] \/ exists latents, replay = [Replay latents]).

(** Neither the model, called as the propagator calls it, nor the guide
    raises. *)
Definition never_raises (self : t) : Prop :=
  (forall active g, exists tr,
      fst (model self (start_time self) (end_time self) (logging_times self)
                 true active g) = inr tr)
  /\ (forall draw g, guide self = Some draw ->
        exists latents, fst (draw g) = inr latents).

(** One sample of the sampling loop. *)
Definition one_sample (self : t) (hs : list Handler)
  : Eff World Trajectory :=
  match guide self with
  | None => wrapped_model self hs
  | Some g =>
      let! latents := run_guide g in
      with_ (Replay latents) (wrapped_model self hs)
  end.

(** What a computation does to the world, as far as the properties below
    need it: the handler stack is restored and model calls are appended,
    each made under all the handlers. *)
Definition appends (self : t) (hs : list Handler) (w w' : World)
    (sims : list Simulation) : Prop :=
  stack w' = stack w
  /\ simulations w' = simulations w ++ sims
  /\ Forall (simulated_under self hs (stack w)) sims.

(** Two worlds agree when they differ in the record of model calls only. *)
Definition agree (w1 w2 : World) : Prop :=
  rng w1 = rng w2 /\ stack w1 = stack w2.

(** A computation is oblivious when neither its result nor the rest of
    the world it leaves depends on the record of model calls. *)
Definition oblivious {A} (m : Eff World A) : Prop :=
  forall w1 w2, agree w1 w2 ->
    fst (m w1) = fst (m w2) /\ agree (snd (m w1)) (snd (m w2)).

(** What follows the reseeding in [propagate_uncertainty]. *)
Definition after_reseeding (self : t) (x : np.array_like)
  : Eff World Samples :=
  let! hs := lift (create_handlers (interventions self)
                                   (np.atleast_1d x) [] 0) in
  Predictive (wrapped_model self hs) (guide self) (num_samples self).

End propagator_vocabulary.

(** ** The vocabulary of the properties of solveOUU *)

Section optimizer_vocabulary.
Import scipy solveOUU.
Context `{Libm} `{Minimizer}.

(** A point within the box, component by component and bounds included. *)
Definition within (lower upper x : list Q) : Prop :=
  Forall2 Qle lower x /\ Forall2 Qle x upper.

(** The local minimizer, run as [solve] runs it, lands within the box when
    it starts from the initial guess or from a point within the box. *)
Definition local_search_stays_within (self : t) (lower upper : list Q)
  : Prop :=
  forall kwargs start,
    solve_minimizer_kwargs self = inr kwargs ->
    start = x0 self \/ within lower upper start ->
    within lower upper (x (fst (minimize (objfun self) start kwargs))).

(** What basin hopping keeps true of its search state in that case. *)
Definition search_within (lower upper : list Q) (r : Runner) : Prop :=
  within lower upper (x (current r))
  /\ within lower upper (x (lowest r))
  /\ RandomDisplacementBounds.xmin (take_step r) = lower
  /\ RandomDisplacementBounds.xmax (take_step r) = upper.

End optimizer_vocabulary.

(** ** The vocabulary of the properties of interruptions *)

Section interruption_vocabulary.
Import interruptions.

(** What one round of the callback's loop makes of an object that has the
    target attribute, and what the whole loop makes of it. *)
Definition intervened_step (obj : Object) (item : string * Intervention)
  : Object :=
  match obj !! fst item with
  | Some old => <[fst item := intervene old (snd item)]> obj
  | None => obj
  end.

Definition intervened (items : list (string * Intervention)) (obj : Object)
  : Object :=
  fold_left intervened_step items obj.

(** The heap after a loop that wrote to the object at [l]: an empty loop
    writes nothing. *)
Definition written (items : list (string * Intervention)) (l : loc)
    (h : Heap) : Heap :=
  match items with
  | [] => h
  | _ => <[l := intervened items (deref h l)]> h
  end.

(** Every target of the items is an attribute of the object. *)
Definition targets_exist (items : list (string * Intervention)) (obj : Object)
  : Prop :=
  forall name a, In (name, a) items -> is_Some (obj !! name).

(** An intervention that assigns a value, whatever the old one. *)
Definition is_constant (act : Intervention) : Prop :=
  match act with
  | Constant _ => True
  | Callable _ => False
  end.

End interruption_vocabulary.

(** ** Further concrete data, for the examples *)

Module more_examples.



(** A policy optimizer whose bounds array has one row only. *)
Definition one_row : solveOUU.t :=
  {| solveOUU.x0 := [1 # 2]%Q;
     solveOUU.objfun := examples.away;
     solveOUU.constraints := [];
     solveOUU.minimizer_kwargs := scipy.VNone;
     solveOUU.optimizer_algorithm := solveOUU.default_optimizer_algorithm;
     solveOUU.maxiter := 2;
     solveOUU.maxfeval := 60;
     solveOUU.u_bounds := [[0%Q]] |}.

End more_examples.

(** ** The vocabulary of the progress of solveOUU *)

Section progress_vocabulary.
Import scipy solveOUU.
Context `{Libm} `{Minimizer}.

(** The local minimizer, run as [solve] runs it, passes at most [bound]
    points to its callback. *)
Definition reports_at_most (self : t) (bound : nat) : Prop :=
  forall kwargs start,
    solve_minimizer_kwargs self = inr kwargs ->
    (length (snd (minimize (objfun self) start kwargs)) <= bound)%nat.

(** From [w] to [w'] the progress bar has kept its total and its count has
    grown, by at most [by_at_most]. *)
Definition progressed (by_at_most : Z) (w w' : World) : Prop :=
  tqdm.total (pbar w') = tqdm.total (pbar w)
  /\ (tqdm.n (pbar w) <= tqdm.n (pbar w') <= tqdm.n (pbar w) + by_at_most)%Z.

Definition advances {A} (by_at_most : Z) (m : Eff World A) : Prop :=
  forall w, progressed by_at_most w (snd (m w)).

End progress_vocabulary.

(** * Properties *)

(** ** interruptions.py *)

Section interruption_properties.
Import interruptions.

Lemma deref_setattr l name v (h : Heap) :
  deref (snd (setattr l name v h)) l = <[name := v]> (deref h l).
Proof. unfold setattr, modify, deref. simpl. by rewrite lookup_insert_eq. Qed.

Lemma setattr_other l l' name v (h : Heap) :
  l' ≠ l -> snd (setattr l name v h) !! l' = h !! l'.
Proof. intros Hne. unfold setattr, modify. simpl. by rewrite lookup_insert_ne. Qed.

(** The loop of the callback, when every target is an attribute of the
    object and no target is named twice. *)
Lemma callback_loop_spec (items : list (string * Intervention)) (l : loc) :
  forall h : Heap,
    NoDup (map fst items) ->
    (forall name a, In (name, a) items -> is_Some (deref h l !! name)) ->
    exists h' : Heap,
      callback_loop items l h = (inr tt, h')
      /\ (forall name a old,
             In (name, a) items -> deref h l !! name = Some old ->
             deref h' l !! name = Some (intervene old a))
      /\ (forall name, ~ In name (map fst items) ->
             deref h' l !! name = deref h l !! name)
      /\ (forall l', l' ≠ l -> h' !! l' = h !! l').
Proof.
  induction items as [|[n0 a0] rest IH]; intros h Hnd Hall.
  - exists h. simpl. repeat split; auto. intros ? ? ? [].
  - simpl in Hnd. apply NoDup_cons in Hnd as [Hfresh Hnd].
    destruct (Hall n0 a0 (or_introl eq_refl)) as [old0 Hold0].
    set (h1 := snd (setattr l n0 (intervene old0 a0) h)).
    assert (Hd1 : deref h1 l = <[n0 := intervene old0 a0]> (deref h l))
      by apply deref_setattr.
    destruct (IH h1 Hnd) as (h' & Hrun & Hin & Hout & Hoth).
    { intros name a Hi. rewrite Hd1.
      destruct (decide (n0 = name)) as [->|Hne].
      - rewrite lookup_insert_eq. eauto.
      - rewrite lookup_insert_ne by done. apply (Hall name a). by right. }
    exists h'. split; [|split; [|split]].
    + simpl. unfold bind at 1. unfold getattr. rewrite Hold0.
      unfold bind at 1. simpl. exact Hrun.
    + intros name a old [Heq|Hi] Hold.
      * inversion Heq; subst name a.
        rewrite Hout.
        -- rewrite Hd1, lookup_insert_eq. congruence.
        -- intros Hc. apply Hfresh. by apply list_elem_of_In.
      * assert (Hne : n0 ≠ name).
        { intros ->. apply Hfresh. apply list_elem_of_In.
          apply in_map_iff. exists (name, a). auto. }
        apply (Hin name a old Hi). rewrite Hd1.
        by rewrite lookup_insert_ne.
    + intros name Hni. simpl in Hni.
      rewrite Hout by tauto. rewrite Hd1.
      rewrite lookup_insert_ne; [done | tauto].
    + intros l' Hne. rewrite Hoth by done. subst h1.
      by apply setattr_other.
Qed.

(** C6. When a parameter-intervention handler fires, each target
    attribute of the live model object is read, replaced by
    [intervention(old)] for a callable intervention and by the constant
    otherwise, and written back on the same object: the callback returns
    the very bound method it was given, the object behind it now holds the
    new values, attributes that are no target and other objects are
    untouched, and a later call of the method runs on the new values. *)
Theorem ParameterIntervention_mutates_in_place
    (ev : Event) (intervention : list (string * Intervention))
    (dynamics : MethodType) (state : State) (h : Heap) :
  NoDup (map fst intervention) ->
  (forall name a, In (name, a) intervention ->
     is_Some (deref h (__self__ dynamics) !! name)) ->
  exists h' : Heap,
    callback (_ParameterIntervention ev intervention) dynamics state h
    = (inr (dynamics, state), h')
    /\ (forall name a old,
           In (name, a) intervention ->
           deref h (__self__ dynamics) !! name = Some old ->
           deref h' (__self__ dynamics) !! name = Some (intervene old a))
    /\ (forall name, ~ In name (map fst intervention) ->
           deref h' (__self__ dynamics) !! name
           = deref h (__self__ dynamics) !! name)
    /\ (forall l', l' ≠ __self__ dynamics -> h' !! l' = h !! l')
    /\ (forall t s,
           call_method dynamics t s h'
           = (inr (__func__ dynamics (deref h' (__self__ dynamics)) t s), h')).
Proof.
  intros Hnd Hall.
  destruct (callback_loop_spec intervention (__self__ dynamics) h Hnd Hall)
    as (h' & Hrun & Hin & Hout & Hoth).
  exists h'. split; [|repeat split; auto].
  simpl. unfold bind. rewrite Hrun. reflexivity.
Qed.

End interruption_properties.

Section interruption_examples.
Import interruptions.

Lemma ParameterIntervention_mutates_in_place_witness :
  exists h' : Heap,
    callback (_ParameterIntervention (StaticEvent 2%Q) examples.sir_intervention)
             examples.sir_dynamics ∅ examples.sir_heap
    = (inr (examples.sir_dynamics, ∅), h')
    /\ deref h' 1%positive !! "beta" = Some 1%Q
    /\ deref h' 1%positive !! "gamma" = Some ((1 # 5) + 1)%Q.
Proof.
  destruct (ParameterIntervention_mutates_in_place
              (StaticEvent 2%Q) examples.sir_intervention
              examples.sir_dynamics ∅ examples.sir_heap)
    as (h' & Hrun & Hin & _).
  - apply (bool_decide_unpack _). vm_compute. exact I.
  - intros name a [Heq|[Heq|[]]]; inversion Heq; subst; vm_compute; eauto.
  - exists h'. split; [exact Hrun|]. split.
    + apply (Hin "beta" (Constant 1%Q) (1 # 2)%Q); [by left | reflexivity].
    + apply (Hin "gamma" (Callable (fun g => g + 1)%Q) (1 # 5)%Q);
        [right; by left | reflexivity].
Defined.

End interruption_examples.

(** ** ouu.py: RandomDisplacementBounds *)

Section displacement_properties.
Import RandomDisplacementBounds.

Lemma broadcast2_same_length (f : Q -> Q -> Q) (a b : list Q) :
  length a = length b -> np.broadcast2 f a b = inr (zip_with f a b).
Proof.
  intros Hlen. unfold np.broadcast2.
  by rewrite (proj2 (Nat.eqb_eq _ _) Hlen).
Qed.

Lemma zip_with_same_length (f : Q -> Q -> Q) (a b : list Q) :
  length a = length b -> length (zip_with f a b) = length a.
Proof.
  revert b. induction a as [|u a IH]; intros [|v b] Hlen; simpl in *;
    try discriminate; auto.
Qed.

Lemma clip_same_length (a lo hi : list Q) :
  length a = length lo -> length lo = length hi ->
  np.clip a lo hi = inr (zip_with Qmin hi (zip_with Qmax a lo)).
Proof.
  intros Ha Hlo. unfold np.clip, np.maximum, np.minimum.
  rewrite (broadcast2_same_length Qmax a lo Ha).
  apply broadcast2_same_length.
  rewrite zip_with_same_length; congruence.
Qed.

(** Clipping into an ordered pair of bounds lands between them. *)
Lemma clipped_between (lo hi : list Q) :
  Forall2 Qle lo hi ->
  forall a : list Q,
    length a = length lo ->
    Forall2 Qle lo (zip_with Qmin hi (zip_with Qmax a lo))
    /\ Forall2 Qle (zip_with Qmin hi (zip_with Qmax a lo)) hi.
Proof.
  induction 1 as [|l0 h0 lo hi Hle _ IH]; intros [|u a] Hlen;
    simpl in *; try discriminate.
  - split; constructor.
  - destruct (IH a) as [Hlow Hhigh]; [congruence|].
    split; constructor; auto.
    + apply Q.min_glb; [exact Hle | apply Q.le_max_r].
    + apply Q.le_min_l.
Qed.

(** The step generator clips what it proposes. *)
Lemma displacement_clipped
    (self : t) (x : list Q) (g : RandomState) :
  Forall2 Qle (xmin self) (xmax self) ->
  length x = length (xmin self) ->
  exists (xnew : list Q) (g' : RandomState),
    __call__ self x g = (inr xnew, g')
    /\ Forall2 Qle (xmin self) xnew
    /\ Forall2 Qle xnew (xmax self).
Proof.
  intros Hord Hlen.
  pose proof (Forall2_length _ _ _ Hord) as Hbounds.
  set (noise := map (fun i => - stepsize self
                              + (stepsize self - - stepsize self) * g i)%Q
                    (seq 0 (length x))).
  assert (Hnoise : length x = length noise)
    by (subst noise; by rewrite length_map, length_seq).
  set (moved := zip_with Qplus x noise).
  assert (Hmoved : length moved = length (xmin self))
    by (subst moved; rewrite zip_with_same_length; congruence).
  destruct (clipped_between _ _ Hord moved Hmoved) as [Hlow Hhigh].
  eexists _, _. split; [|split; [exact Hlow | exact Hhigh]].
  unfold __call__, bind, np.random_uniform, lift, np.add.
  fold noise. rewrite (broadcast2_same_length Qplus x noise Hnoise).
  fold moved. by rewrite (clip_same_length moved _ _ Hmoved Hbounds).
Qed.

(** C4. With [xmin <= xmax] component-wise, the step generator returns,
    for every point of the box's dimension and every realization of the
    random perturbation, a point that lies component-wise within
    [[xmin, xmax]]. *)
Theorem RandomDisplacementBounds_call_within_bounds
    (self : t) (x : list Q) (g : RandomState) :
  Forall2 Qle (xmin self) (xmax self) ->
  length x = length (xmin self) ->
  exists (xnew : list Q) (g' : RandomState),
    __call__ self x g = (inr xnew, g')
    /\ Forall2 Qle (xmin self) xnew
    /\ Forall2 Qle xnew (xmax self).
Proof. apply displacement_clipped. Qed.

(** *** Points of another shape than the bounds *)



Lemma broadcast2_mismatch (f : Q -> Q -> Q) (a b : list Q) :
  length a <> length b -> length a <> 1%nat -> length b <> 1%nat ->
  np.broadcast2 f a b = inl ValueError.
Proof.
  intros Hab Ha Hb. unfold np.broadcast2.
  by rewrite (proj2 (Nat.eqb_neq _ _) Hab), (proj2 (Nat.eqb_neq _ _) Ha),
             (proj2 (Nat.eqb_neq _ _) Hb).
Qed.


Lemma RandomDisplacementBounds_call_within_bounds_witness :
  exists (xnew : list Q) (g' : RandomState),
    __call__ examples.unit_box [1 # 2]%Q (examples.lcg 0) = (inr xnew, g')
    /\ Forall2 Qle [0%Q] xnew
    /\ Forall2 Qle xnew [1%Q].
Proof.
  apply (RandomDisplacementBounds_call_within_bounds
           examples.unit_box [1 # 2]%Q (examples.lcg 0)).
  - repeat constructor. discriminate.
  - reflexivity.
Defined.

Section with_libm.
Context `{Libm}.

(** C5. Constructed without an explicit step size, the generator takes
    0.3 times the Euclidean norm of [xmax - xmin] as its step size; for
    [xmin = [0]] and [xmax = [1]] that is 0.3, the square root of 1
    being 1. *)
Theorem RandomDisplacementBounds_derived_stepsize (lower upper : list Q) :
  length lower = length upper ->
  exists self : t,
    __init__ lower upper PyNone = inr self
    /\ xmin self = lower
    /\ xmax self = upper
    /\ stepsize self
       = ((3 # 10)
          * sqrt (np.sum (zip_with (fun hi lo => (hi - lo) * (hi - lo))
                                   upper lower)))%Q
    /\ ((sqrt 1 == 1)%Q ->
        exists unit : t,
          __init__ [0%Q] [1%Q] PyNone = inr unit
          /\ (stepsize unit == 3 # 10)%Q).
Proof.
  intros Hlen. unfold __init__. simpl.
  unfold np.subtract. rewrite broadcast2_same_length by done.
  eexists. split; [reflexivity|]. simpl. repeat split.
  - unfold np.linalg_norm. do 3 f_equal.
    clear Hlen. revert lower.
    induction upper as [|hi upper' IH]; intros [|lo lower']; simpl; auto.
    by rewrite IH.
  - intros Hsqrt. eexists. split; [reflexivity|]. simpl.
    unfold np.linalg_norm. simpl.
    change (sqrt ((1 - 0) * (1 - 0) + 0)%Q) with (sqrt 1).
    rewrite Hsqrt. reflexivity.
Qed.

(** C10. A falsy step size, [None] or any zero, is ignored by the
    constructor: the step size is derived as when none is given, 0.3
    times the Euclidean norm of [xmax - xmin]. Every value that is
    numerically zero is falsy, so a zero step size cannot be set. *)
Theorem RandomDisplacementBounds_falsy_stepsize_ignored
    (lower upper : list Q) (given : PyObj) :
  truthy given = false ->
  __init__ lower upper given = __init__ lower upper PyNone
  /\ __init__ lower upper given
     = match np.subtract upper lower with
       | inl e => inl e
       | inr extent =>
           inr {| xmin := lower; xmax := upper;
                  stepsize := (3 # 10) * np.linalg_norm extent |}
       end
  /\ (forall zero : PyObj, (as_number zero == 0)%Q -> truthy zero = false).
Proof.
  intros Hf. unfold __init__. rewrite Hf. simpl.
  split; [reflexivity|]. split; [reflexivity|].
  intros zero Hzero.
  destruct zero as [|[]|z|q]; simpl in *; auto.
  - discriminate.
  - unfold Qeq in Hzero. simpl in Hzero.
    replace z with 0%Z by lia. reflexivity.
  - apply negb_false_iff. by apply Qeq_bool_iff.
Qed.

End with_libm.

Lemma RandomDisplacementBounds_derived_stepsize_witness :
  (exists self : t,
      @__init__ examples.libm [0; 0]%Q [3; 4]%Q PyNone = inr self
      /\ (stepsize self == 3 # 2)%Q)
  /\ (exists unit : t,
         @__init__ examples.libm [0%Q] [1%Q] PyNone = inr unit
         /\ (stepsize unit == 3 # 10)%Q).
Proof.
  destruct (@RandomDisplacementBounds_derived_stepsize
              examples.libm [0; 0]%Q [3; 4]%Q eq_refl)
    as (self & Hinit & _ & _ & Hstep & Hunit).
  split.
  - exists self. split; [exact Hinit|]. rewrite Hstep. reflexivity.
  - apply Hunit. reflexivity.
Defined.

Lemma RandomDisplacementBounds_falsy_stepsize_ignored_witness :
  @__init__ examples.libm [0%Q] [1%Q] (PyInt 0)
  = @__init__ examples.libm [0%Q] [1%Q] PyNone
  /\ truthy (PyFloat 0) = false.
Proof.
  destruct (@RandomDisplacementBounds_falsy_stepsize_ignored
              examples.libm [0%Q] [1%Q] (PyInt 0) eq_refl)
    as (Heq & _ & Hzero).
  split; [exact Heq|]. apply Hzero. reflexivity.
Defined.

End displacement_properties.

(** ** ouu.py: computeRisk *)

Section propagator_properties.
Import interruptions pyro computeRisk.

Lemma create_handlers_enough (items : list (Tensor * string)) (x : list Q) :
  forall (acc : list Handler) (count : nat),
    length items <= length (drop count x) ->
    create_handlers items x acc count
    = inr (acc ++ zip_with handler_for items (drop count x)).
Proof.
  induction items as [|[time param] rest IH]; intros acc count Hlen.
  - simpl. by rewrite app_nil_r.
  - cbn [create_handlers]. destruct (x !! count) as [v|] eqn:Hv.
    + rewrite (drop_S _ _ _ Hv). rewrite (drop_S _ _ _ Hv) in Hlen.
      simpl in Hlen. cbn [zip_with].
      rewrite Nat.add_1_r, IH by lia.
      by rewrite <- app_assoc.
    + apply lookup_ge_None in Hv.
      rewrite length_drop in Hlen. simpl in Hlen. lia.
Qed.

Lemma create_handlers_short (items : list (Tensor * string)) (x : list Q) :
  forall (acc : list Handler) (count : nat),
    length (drop count x) < length items ->
    create_handlers items x acc count = inl IndexError.
Proof.
  induction items as [|[time param] rest IH]; intros acc count Hlen;
    [simpl in Hlen; lia|].
  cbn [create_handlers].
  destruct (x !! count) as [v|] eqn:Hv; [|reflexivity].
  rewrite (drop_S _ _ _ Hv) in Hlen. simpl in Hlen.
  rewrite Nat.add_1_r. apply IH. lia.
Qed.

(** Components of [x] past the last entry are never read. *)
Lemma create_handlers_take (items : list (Tensor * string)) (x : list Q) :
  length items <= length x ->
  create_handlers items x [] 0
  = create_handlers items (take (length items) x) [] 0.
Proof.
  intros Hlen.
  rewrite !create_handlers_enough; rewrite ?drop_0, ?length_take; try lia.
  do 2 f_equal. clear Hlen. revert x.
  induction items as [|e rest IH]; intros [|v x]; simpl; auto.
  by rewrite <- IH.
Qed.

(** *** The handler stack around a model call *)

Lemma for_each_enter (hs : list Handler) :
  forall w : World,
    for_each hs (fun handler => enter_context (Interruption handler)) w
    = (inr tt, {| rng := rng w;
                  stack := rev (map Interruption hs) ++ stack w;
                  simulations := simulations w |}).
Proof.
  induction hs as [|h hs IH]; intros w; simpl.
  - by destruct w.
  - unfold bind at 1. unfold enter_context at 1, modify. rewrite IH. simpl.
    by rewrite <- app_assoc.
Qed.

Lemma unwind_extension (ext base : list Messenger) (g : RandomState)
    (sims : list Simulation) :
  unwind (length base)
         {| rng := g; stack := ext ++ base; simulations := sims |}
  = {| rng := g; stack := base; simulations := sims |}.
Proof.
  unfold unwind. cbn [rng stack simulations]. f_equal.
  rewrite length_app.
  replace (length ext + length base - length base) with (length ext) by lia.
  by rewrite drop_app_length.
Qed.

Lemma wrapped_model_run (self : t) (hs : list Handler) (w : World) :
  wrapped_model self hs w
  = (fst (model self (start_time self) (end_time self) (logging_times self)
                true (under self hs (stack w)) (rng w)),
     {| rng := snd (model self (start_time self) (end_time self)
                          (logging_times self) true
                          (under self hs (stack w)) (rng w));
        stack := stack w;
        simulations :=
          simulations w ++ [simulation_of self (under self hs (stack w))] |}).
Proof.
  unfold wrapped_model, with_, ExitStack.
  unfold bind at 1. unfold enter_context at 1, modify.
  unfold bind at 1. rewrite for_each_enter. cbn [stack rng simulations].
  unfold call_model. cbn [stack rng simulations].
  change (rev (map Interruption hs)
          ++ TorchDiffEq (solver_method self) (solver_options self) :: stack w)
    with (under self hs (stack w)).
  destruct (model self _ _ _ _ _ _) as [r g]. cbn [fst snd].
  f_equal.
  change (TorchDiffEq (solver_method self) (solver_options self) :: stack w)
    with ([TorchDiffEq (solver_method self) (solver_options self)] ++ stack w).
  rewrite (unwind_extension (rev (map Interruption hs))).
  by rewrite unwind_extension.
Qed.

Lemma with_wrapped_model_run (self : t) (hs : list Handler) (m : Messenger)
    (w : World) :
  with_ m (wrapped_model self hs) w
  = (fst (model self (start_time self) (end_time self) (logging_times self)
                true (under self hs (m :: stack w)) (rng w)),
     {| rng := snd (model self (start_time self) (end_time self)
                          (logging_times self) true
                          (under self hs (m :: stack w)) (rng w));
        stack := stack w;
        simulations :=
          simulations w
          ++ [simulation_of self (under self hs (m :: stack w))] |}).
Proof.
  unfold with_, bind at 1. unfold enter_context, modify.
  rewrite wrapped_model_run. cbn [stack rng simulations fst snd].
  f_equal. apply (unwind_extension [m]).
Qed.

Lemma Predictive_S (self : t) (hs : list Handler) (n : nat) :
  Predictive (wrapped_model self hs) (guide self) (S n)
  = (let! sample := one_sample self hs in
     let! others := Predictive (wrapped_model self hs) (guide self) n in
     ret (sample :: others)).
Proof. reflexivity. Qed.

Lemma appends_trans self hs w w1 w2 sims1 sims2 :
  appends self hs w w1 sims1 -> appends self hs w1 w2 sims2 ->
  appends self hs w w2 (sims1 ++ sims2).
Proof.
  intros (Hs1 & Hl1 & Ha1) (Hs2 & Hl2 & Ha2). repeat split.
  - congruence.
  - by rewrite Hl2, Hl1, <- app_assoc.
  - apply Forall_app. split; [exact Ha1|]. by rewrite <- Hs1.
Qed.

Lemma one_sample_run (self : t) (hs : list Handler) (w : World) :
  exists (r : Result Trajectory) (w' : World) (sims : list Simulation),
    one_sample self hs w = (r, w')
    /\ appends self hs w w' sims
    /\ length sims <= 1
    /\ (forall tr, r = inr tr -> length sims = 1)
    /\ (never_raises self -> exists tr, r = inr tr).
Proof.
  unfold one_sample. destruct (guide self) as [draw|] eqn:Hguide.
  - unfold bind, run_guide.
    destruct (draw (rng w)) as [[e|latents] g'] eqn:Hdraw.
    + exists (inl e), {| rng := g'; stack := stack w;
                         simulations := simulations w |}, [].
      split; [reflexivity|]. split; [|split; [simpl; lia|split]].
      * repeat split; cbn [stack simulations]; auto. by rewrite app_nil_r.
      * discriminate.
      * intros [_ Hg]. destruct (Hg draw (rng w) Hguide) as [l Hl].
        rewrite Hdraw in Hl. discriminate.
    + rewrite with_wrapped_model_run. cbn [stack rng simulations].
      eexists _, _, [_]. split; [reflexivity|].
      split; [|split; [simpl; lia|split]].
      * repeat split; cbn [stack simulations]; auto.
        constructor; [|constructor].
        exists [Replay latents]. split; [reflexivity|]. eauto.
      * reflexivity.
      * intros [Hmod _]. apply Hmod.
  - rewrite wrapped_model_run.
    eexists _, _, [_]. split; [reflexivity|].
    split; [|split; [simpl; lia|split]].
    + repeat split; cbn [stack simulations]; auto.
      constructor; [|constructor].
      exists []. split; [reflexivity|]. eauto.
    + reflexivity.
    + intros [Hmod _]. apply Hmod.
Qed.

(** The sampling loop: it leaves the handler stack as it found it, and
    records one model call per sample it got to, each made under all the
    handlers. *)
Lemma Predictive_run (self : t) (hs : list Handler) (n : nat) :
  forall w : World,
  exists (r : Result Samples) (w' : World) (sims : list Simulation),
    Predictive (wrapped_model self hs) (guide self) n w = (r, w')
    /\ appends self hs w w' sims
    /\ length sims <= n
    /\ (forall samples, r = inr samples ->
          length samples = n /\ length sims = n)
    /\ (never_raises self -> exists samples, r = inr samples).
Proof.
  induction n as [|n IH]; intros w.
  - exists (inr []), w, []. split; [reflexivity|].
    split; [|split; [simpl; lia|split]].
    + repeat split; auto. by rewrite app_nil_r.
    + intros samples Heq. inversion Heq. auto.
    + eauto.
  - rewrite Predictive_S. unfold bind at 1.
    destruct (one_sample_run self hs w)
      as (r1 & w1 & sims1 & Hrun1 & Happ1 & Hlen1 & Hok1 & Htot1).
    rewrite Hrun1. destruct r1 as [e|tr].
    + exists (inl e), w1, sims1. split; [reflexivity|].
      split; [exact Happ1|]. split; [lia|]. split; [discriminate|].
      intros Hnr. destruct (Htot1 Hnr). discriminate.
    + specialize (Hok1 tr eq_refl).
      destruct (IH w1)
        as (r2 & w2 & sims2 & Hrun2 & Happ2 & Hlen2 & Hok2 & Htot2).
      unfold bind at 1. rewrite Hrun2.
      pose proof (appends_trans _ _ _ _ _ _ _ Happ1 Happ2) as Happ.
      destruct r2 as [e|others].
      * exists (inl e), w2, (sims1 ++ sims2). split; [reflexivity|].
        split; [exact Happ|]. rewrite length_app.
        split; [lia|]. split; [discriminate|].
        intros Hnr. destruct (Htot2 Hnr). discriminate.
      * destruct (Hok2 others eq_refl) as [Ho Hs].
        exists (inr (tr :: others)), w2, (sims1 ++ sims2).
        split; [reflexivity|]. split; [exact Happ|]. rewrite length_app.
        split; [lia|]. split.
        -- intros samples Heq. inversion Heq. simpl. lia.
        -- eauto.
Qed.

(** *** The record of model calls is write-only *)

Lemma oblivious_ret {A} (a : A) : oblivious (ret a).
Proof. intros w1 w2 Hag. split; [reflexivity | exact Hag]. Qed.

Lemma oblivious_lift {A} (r : Result A) : oblivious (lift r).
Proof. intros w1 w2 Hag. split; [reflexivity | exact Hag]. Qed.

Lemma oblivious_bind {A B} (m : Eff World A) (k : A -> Eff World B) :
  oblivious m -> (forall a, oblivious (k a)) -> oblivious (bind m k).
Proof.
  intros Hm Hk w1 w2 Hag. unfold bind.
  destruct (Hm w1 w2 Hag) as [Hr Hw].
  destruct (m w1) as [r1 w1'], (m w2) as [r2 w2']. simpl in Hr, Hw.
  subst r2. destruct r1 as [e|a]; [split; [reflexivity | exact Hw]|].
  by apply Hk.
Qed.

Lemma oblivious_enter_context (m : Messenger) : oblivious (enter_context m).
Proof.
  intros w1 w2 [Hr Hs]. split; [reflexivity|].
  split; simpl; congruence.
Qed.

Lemma agree_unwind (d1 d2 : nat) (w1 w2 : World) :
  d1 = d2 -> agree w1 w2 -> agree (unwind d1 w1) (unwind d2 w2).
Proof. intros -> [Hr Hs]. split; simpl; congruence. Qed.

Lemma oblivious_with {A} (m : Messenger) (body : Eff World A) :
  oblivious body -> oblivious (with_ m body).
Proof.
  intros Hb w1 w2 Hag. unfold with_.
  destruct (oblivious_bind _ _ (oblivious_enter_context m) (fun _ => Hb)
              w1 w2 Hag) as [Hr Hw].
  destruct (bind _ _ w1) as [r1 w1'], (bind _ _ w2) as [r2 w2'].
  simpl in *. split; [exact Hr|].
  apply agree_unwind; [|exact Hw]. destruct Hag. congruence.
Qed.

Lemma oblivious_ExitStack {A} (body : Eff World A) :
  oblivious body -> oblivious (ExitStack body).
Proof.
  intros Hb w1 w2 Hag. unfold ExitStack.
  destruct (Hb w1 w2 Hag) as [Hr Hw].
  destruct (body w1) as [r1 w1'], (body w2) as [r2 w2'].
  simpl in *. split; [exact Hr|].
  apply agree_unwind; [|exact Hw]. destruct Hag. congruence.
Qed.

Lemma oblivious_for_each {A} (items : list A) (body : A -> Eff World unit) :
  (forall a, oblivious (body a)) -> oblivious (for_each items body).
Proof.
  intros Hb. induction items as [|a items IH]; simpl.
  - apply oblivious_ret.
  - apply oblivious_bind; auto.
Qed.

Lemma oblivious_call_model (m : Model) (a b : Q) (ts : list Q) (tr : bool) :
  oblivious (call_model m a b ts tr).
Proof.
  intros w1 w2 [Hr Hs]. unfold call_model. rewrite Hr, Hs.
  destruct (m a b ts tr (stack w2) (rng w2)) as [r g].
  split; [reflexivity|]. split; reflexivity.
Qed.

Lemma oblivious_run_guide (g : Guide) : oblivious (run_guide g).
Proof.
  intros w1 w2 [Hr Hs]. unfold run_guide. rewrite Hr.
  destruct (g (rng w2)) as [r g'].
  split; [reflexivity|]. split; [reflexivity | exact Hs].
Qed.

Create HintDb oblivious.
Hint Resolve oblivious_ret oblivious_lift oblivious_enter_context
  oblivious_call_model oblivious_run_guide : oblivious.
Hint Extern 2 (oblivious (bind _ _)) =>
  apply oblivious_bind; [|intro] : oblivious.
Hint Extern 2 (oblivious (with_ _ _)) => apply oblivious_with : oblivious.
Hint Extern 2 (oblivious (ExitStack _)) =>
  apply oblivious_ExitStack : oblivious.
Hint Extern 2 (oblivious (for_each _ _)) =>
  apply oblivious_for_each; intro : oblivious.

Lemma oblivious_wrapped_model (self : t) (hs : list Handler) :
  oblivious (wrapped_model self hs).
Proof. unfold wrapped_model. auto 10 with oblivious. Qed.

Lemma oblivious_Predictive {program : Eff World Trajectory}
    (guide : option Guide) (n : nat) :
  oblivious program -> oblivious (Predictive program guide n).
Proof.
  intros Hp. induction n as [|n IH]; simpl; [auto with oblivious|].
  destruct guide; auto 10 with oblivious.
Qed.

Section with_seeding.
Context `{torch.Seeding}.

Lemma propagate_uncertainty_reseeds (self : t) (x : np.array_like)
    (w : World) :
  propagate_uncertainty self x w
  = after_reseeding self x {| rng := torch.manual_seed 0;
                              stack := stack w;
                              simulations := simulations w |}.
Proof. reflexivity. Qed.

(** After the reseeding, the generator state that the call found is
    gone: the outcome depends on the handler stack only. *)
Lemma propagate_uncertainty_from_stack (self : t) (x : np.array_like)
    (w1 w2 : World) :
  stack w1 = stack w2 ->
  fst (propagate_uncertainty self x w1)
  = fst (propagate_uncertainty self x w2)
  /\ agree (snd (propagate_uncertainty self x w1))
           (snd (propagate_uncertainty self x w2)).
Proof.
  intros Hs. rewrite !propagate_uncertainty_reseeds.
  assert (Hob : oblivious (after_reseeding self x)).
  { apply oblivious_bind.
    - apply oblivious_lift.
    - intros hs. apply oblivious_Predictive, oblivious_wrapped_model. }
  apply Hob. split; simpl; congruence.
Qed.

Lemma call_from_stack (self : t) (x : np.array_like) (w1 w2 : World) :
  stack w1 = stack w2 ->
  fst (__call__ self x w1) = fst (__call__ self x w2).
Proof.
  intros Hs. unfold __call__.
  destruct (propagate_uncertainty_from_stack self x w1 w2 Hs) as [Hr Hw].
  unfold bind at 1 3.
  destruct (propagate_uncertainty self x w1) as [r1 w1'],
           (propagate_uncertainty self x w2) as [r2 w2'].
  simpl in Hr, Hw. subst r2. destruct r1 as [e|samples]; [reflexivity|].
  apply oblivious_bind; auto with oblivious.
Qed.

(** What an evaluation does to the world. *)
Lemma propagate_uncertainty_run (self : t) (x : np.array_like) (w : World) :
  (exists hs r w' sims,
      create_handlers (interventions self) (np.atleast_1d x) [] 0 = inr hs
      /\ propagate_uncertainty self x w = (r, w')
      /\ appends self hs w w' sims
      /\ length sims <= num_samples self
      /\ (forall samples, r = inr samples ->
            length samples = num_samples self
            /\ length sims = num_samples self)
      /\ (never_raises self -> exists samples, r = inr samples))
  \/ (exists e,
        create_handlers (interventions self) (np.atleast_1d x) [] 0 = inl e
        /\ propagate_uncertainty self x w
           = (inl e, {| rng := torch.manual_seed 0; stack := stack w;
                        simulations := simulations w |})).
Proof.
  rewrite propagate_uncertainty_reseeds. unfold after_reseeding, bind, lift.
  destruct (create_handlers _ _ _ _) as [e|hs] eqn:Hcreate.
  - right. exists e. auto.
  - left.
    match goal with
    | |- context [Predictive _ _ _ ?w0] =>
        destruct (Predictive_run self hs (num_samples self) w0)
          as (r & w' & sims & Hrun & Happ & Hlen & Hok & Htot)
    end.
    exists hs, r, w', sims.
    split; [reflexivity|]. split; [exact Hrun|].
    split; [exact Happ|]. auto.
Qed.

Lemma call_restores_stack (self : t) (x : np.array_like) (w : World) :
  stack (snd (__call__ self x w)) = stack w.
Proof.
  unfold __call__, bind at 1.
  destruct (propagate_uncertainty_run self x w)
    as [(hs & r & w' & sims & _ & Hrun & (Hst & _) & _)
       |(e & _ & Hrun)]; rewrite Hrun; [|reflexivity].
  destruct r as [e|samples]; [exact Hst|].
  unfold bind, lift. by destruct (qoi self samples).
Qed.

(** C1, as the code has it. A candidate vector whose length is not the
    number of declared (time, parameter) pairs is not met with
    [ValueError]. When it is too short, the evaluation raises [IndexError]
    before any simulation work: the generator has been reseeded, and no
    model call has been made. When it is too long, it is accepted, and the
    evaluation is that of its leading components. *)
Theorem evaluate_on_wrong_length (self : t) (x : np.array_like) (w : World) :
  length (np.atleast_1d x) <> length (interventions self) ->
  (length (np.atleast_1d x) < length (interventions self)
   /\ __call__ self x w
      = (inl IndexError, {| rng := torch.manual_seed 0; stack := stack w;
                            simulations := simulations w |}))
  \/ (length (interventions self) < length (np.atleast_1d x)
      /\ __call__ self x w
         = __call__ self
             (np.Array1 (take (length (interventions self)) (np.atleast_1d x)))
             w).
Proof.
  intros Hne.
  destruct (Nat.lt_ge_cases (length (np.atleast_1d x))
                            (length (interventions self))) as [Hlt|Hge].
  - left. split; [exact Hlt|].
    unfold __call__, bind at 1.
    rewrite propagate_uncertainty_reseeds. unfold after_reseeding, bind, lift.
    rewrite create_handlers_short; [reflexivity|].
    by rewrite drop_0.
  - right. split; [lia|].
    unfold __call__, bind at 1 3.
    rewrite !propagate_uncertainty_reseeds. unfold after_reseeding.
    unfold bind at 1 3. unfold lift. cbn [np.atleast_1d].
    rewrite <- create_handlers_take by exact Hge. reflexivity.
Qed.

(** C7. With at least as many components in [x] as there are entries in
    the interventions mapping, [propagate_uncertainty] builds exactly one
    static handler per entry, the i-th pairing the i-th entry with [x[i]];
    every model call it makes is made under the solver and all these
    handlers at once; when neither the model nor the guide raises, it makes
    [num_samples] such calls and returns as many samples. *)
Theorem propagate_uncertainty_builds_and_runs_handlers
    (self : t) (x : np.array_like) (w : World) :
  length (interventions self) <= length (np.atleast_1d x) ->
  exists (handlers : list Handler) (r : Result Samples) (w' : World)
         (sims : list Simulation),
    create_handlers (interventions self) (np.atleast_1d x) [] 0 = inr handlers
    /\ length handlers = length (interventions self)
    /\ (forall i time param,
           interventions self !! i = Some (time, param) ->
           exists v,
             np.atleast_1d x !! i = Some v
             /\ handlers !! i
                = Some (StaticParameterIntervention time [(param, Constant v)]))
    /\ propagate_uncertainty self x w = (r, w')
    /\ stack w' = stack w
    /\ simulations w' = simulations w ++ sims
    /\ Forall (simulated_under self handlers (stack w)) sims
    /\ length sims <= num_samples self
    /\ (forall samples, r = inr samples ->
          length samples = num_samples self
          /\ length sims = num_samples self)
    /\ (never_raises self -> exists samples, r = inr samples).
Proof.
  intros Hlen.
  pose proof (create_handlers_enough (interventions self) (np.atleast_1d x)
                [] 0) as Hcreate.
  rewrite drop_0 in Hcreate. specialize (Hcreate Hlen). simpl in Hcreate.
  destruct (propagate_uncertainty_run self x w)
    as [(hs & r & w' & sims & Hhs & Hrun & (Hst & Hsim & Hall) & Hn & Hok & Htot)
       |(e & He & _)]; [|congruence].
  assert (hs = zip_with handler_for (interventions self) (np.atleast_1d x))
    as -> by congruence.
  eexists _, r, w', sims. split; [exact Hcreate|].
  split; [|split; [|split; [exact Hrun|]; split; [exact Hst|];
                    split; [exact Hsim|]; split; [exact Hall|]; auto]].
  - rewrite length_zip_with. lia.
  - intros i time param Hi.
    destruct (lookup_lt_is_Some_2 (np.atleast_1d x) i) as [v Hv].
    { apply lookup_lt_Some in Hi. lia. }
    exists v. split; [exact Hv|].
    apply lookup_zip_with_Some. exists (time, param), v. auto.
Qed.

(** C2. Two evaluations at the same [x] give the same risk: the second of
    two calls in a row returns what the first returned, and so does a call
    made from any other state of the generator, because every evaluation
    starts by resetting the seed to 0. *)
Theorem evaluate_deterministic (self : t) (x : np.array_like) (w : World)
    (g : RandomState) :
  fst (__call__ self x (snd (__call__ self x w))) = fst (__call__ self x w)
  /\ fst (__call__ self x {| rng := g; stack := stack w;
                             simulations := simulations w |})
     = fst (__call__ self x w)
  /\ rng (snd (propagate_uncertainty self x w))
     = rng (snd (propagate_uncertainty self x
                   {| rng := g; stack := stack w;
                      simulations := simulations w |})).
Proof.
  split; [|split].
  - apply call_from_stack, call_restores_stack.
  - by apply call_from_stack.
  - symmetry. by apply propagate_uncertainty_from_stack.
Qed.

End with_seeding.

(** The reseeding is what makes the evaluation reproducible: what follows
    it in [propagate_uncertainty] gives other samples from another state of
    the generator. *)
Remark sampling_depends_on_the_generator :
  fst (after_reseeding examples.risk (np.Scalar (1 # 2)) examples.world0)
  <> fst (after_reseeding examples.risk (np.Scalar (1 # 2))
            {| rng := examples.lcg 7; stack := []; simulations := [] |}).
Proof. vm_compute. intros Heq. inversion Heq. Qed.


Lemma evaluate_on_wrong_length_witness :
  @__call__ examples.seeding examples.risk (np.Array1 []) examples.world0
  = (inl IndexError, {| rng := examples.lcg 0; stack := [];
                        simulations := [] |})
  /\ @__call__ examples.seeding examples.risk
       (np.Array1 [1 # 10; 2 # 10]%Q) examples.world0
     = @__call__ examples.seeding examples.risk
         (np.Array1 [1 # 10]%Q) examples.world0.
Proof.
  split.
  - destruct (@evaluate_on_wrong_length examples.seeding examples.risk
                (np.Array1 []) examples.world0) as [[_ Hrun]|[Hlt _]].
    + simpl. lia.
    + exact Hrun.
    + simpl in Hlt. lia.
  - destruct (@evaluate_on_wrong_length examples.seeding examples.risk
                (np.Array1 [1 # 10; 2 # 10]%Q) examples.world0)
      as [[Hlt _]|[_ Hrun]].
    + simpl. lia.
    + simpl in Hlt. lia.
    + exact Hrun.
Defined.

(** C1 as stated fails: with one declared pair, an empty vector raises
    [IndexError], not [ValueError], and a vector of two components raises
    nothing and is evaluated. *)
Lemma evaluate_wrong_length_no_ValueError :
  length (np.atleast_1d (np.Array1 []))
  <> length (interventions examples.risk)
  /\ fst (@__call__ examples.seeding examples.risk (np.Array1 [])
            examples.world0)
     = inl IndexError
  /\ length (np.atleast_1d (np.Array1 [1 # 10; 2 # 10]%Q))
     <> length (interventions examples.risk)
  /\ fst (@__call__ examples.seeding examples.risk
            (np.Array1 [1 # 10; 2 # 10]%Q) examples.world0)
     = inr (num (610 # 1000))
  /\ length (simulations
               (snd (@__call__ examples.seeding examples.risk
                       (np.Array1 [1 # 10; 2 # 10]%Q) examples.world0)))
     = 3.
Proof.
  split; [simpl; lia|]. split; [reflexivity|].
  split; [simpl; lia|]. split; vm_compute; reflexivity.
Qed.

Lemma propagate_uncertainty_builds_and_runs_handlers_witness :
  exists (r : Result Samples) (w' : World) (sims : list Simulation),
    @propagate_uncertainty examples.seeding examples.risk
      (np.Scalar (1 # 2)) examples.world0 = (r, w')
    /\ simulations w' = sims
    /\ Forall (simulated_under examples.risk
                 [StaticParameterIntervention (1 # 10)
                    [("beta", Constant (1 # 2))]] []) sims
    /\ length sims = 3
    /\ exists samples, r = inr samples /\ length samples = 3.
Proof.
  destruct (@propagate_uncertainty_builds_and_runs_handlers
              examples.seeding examples.risk (np.Scalar (1 # 2))
              examples.world0)
    as (hs & r & w' & sims & Hhs & _ & _ & Hrun & _ & Hsim & Hall & _ & Hok & Htot).
  - simpl. lia.
  - inversion Hhs; subst hs.
    destruct Htot as [samples ->].
    { split; [|discriminate]. intros active g. eexists. reflexivity. }
    destruct (Hok samples eq_refl) as [Hsamples Hsims].
    exists (inr samples), w', sims. split; [exact Hrun|].
    split; [exact Hsim|]. split; [exact Hall|]. split; [exact Hsims|].
    exists samples. split; [reflexivity | exact Hsamples].
Defined.

End propagator_properties.

(** ** ouu/risk_measures.py *)

Section superquantile_properties.
Import risk_measures.
Local Open Scope Q_scope.

Lemma size_cons (v : Q) (a : list Q) : np.size (v :: a) == np.size a + 1.
Proof.
  unfold np.size. cbn [length].
  rewrite Nat2Z.inj_succ, <- Z.add_1_r, inject_Z_plus. reflexivity.
Qed.

Lemma size_nonneg (a : list Q) : 0 <= np.size a.
Proof.
  unfold np.size. change 0 with (inject_Z 0).
  rewrite <- Zle_Qle. lia.
Qed.

Lemma size_pos (a : list Q) : a <> [] -> 0 < np.size a.
Proof.
  destruct a as [|v a]; [congruence|]. intros _.
  rewrite size_cons. pose proof (size_nonneg a). lra.
Qed.

Lemma mean_nonempty (a : list Q) :
  a <> [] -> np.mean a = num (np.sum a / np.size a).
Proof. destruct a; [congruence | reflexivity]. Qed.

(** *** The mean of an upper tail grows with the cut *)

Lemma tail_excess_nonneg (q : Q) (l : list Q) :
  np.size (upper_tail l q) * q <= np.sum (upper_tail l q).
Proof.
  unfold upper_tail. induction l as [|v l IH]; cbn [List.filter].
  - change (np.size []) with 0. change (np.sum []) with 0. lra.
  - destruct (Qle_bool q v) eqn:Hv; [|exact IH].
    apply Qle_bool_iff in Hv. rewrite size_cons.
    cbn [np.sum fold_right]. fold (np.sum (List.filter (fun v => Qle_bool q v) l)).
    lra.
Qed.

Lemma tail_excess_mono (q1 q2 : Q) (l : list Q) :
  q1 <= q2 ->
  np.sum (upper_tail l q1) - np.size (upper_tail l q1) * q2
  <= np.sum (upper_tail l q2) - np.size (upper_tail l q2) * q2.
Proof.
  intros Hq. unfold upper_tail. induction l as [|v l IH]; cbn [List.filter].
  - change (np.size []) with 0. change (np.sum []) with 0. lra.
  - destruct (Qle_bool q1 v) eqn:H1, (Qle_bool q2 v) eqn:H2;
      rewrite ?size_cons; cbn [np.sum fold_right];
      fold (np.sum (List.filter (fun v => Qle_bool q1 v) l));
      fold (np.sum (List.filter (fun v => Qle_bool q2 v) l)).
    + lra.
    + assert (~ q2 <= v) by (rewrite <- Qle_bool_iff; congruence). lra.
    + apply Qle_bool_iff in H2.
      assert (~ q1 <= v) by (rewrite <- Qle_bool_iff; congruence). lra.
    + exact IH.
Qed.

Lemma tail_size_mono (q1 q2 : Q) (l : list Q) :
  q1 <= q2 -> np.size (upper_tail l q2) <= np.size (upper_tail l q1).
Proof.
  intros Hq. unfold upper_tail. induction l as [|v l IH]; cbn [List.filter].
  - change (np.size []) with 0. lra.
  - destruct (Qle_bool q1 v) eqn:H1, (Qle_bool q2 v) eqn:H2;
      rewrite ?size_cons; try lra.
    apply Qle_bool_iff in H2.
    assert (~ q1 <= v) by (rewrite <- Qle_bool_iff; congruence). lra.
Qed.

Lemma Qdiv_le_cross (a b c d : Q) :
  0 < b -> 0 < d -> a * d <= c * b -> a / b <= c / d.
Proof.
  intros Hb Hd Hcross.
  apply Qle_shift_div_r; [exact Hb|].
  assert (Heq : c / d * b == c * b / d) by (field; lra).
  rewrite Heq. apply Qle_shift_div_l; assumption.
Qed.

Lemma tail_mean_mono (l : list Q) (q1 q2 : Q) :
  q1 <= q2 -> upper_tail l q2 <> [] ->
  exists r1 r2 : Q,
    tail_mean l q1 = num r1 /\ tail_mean l q2 = num r2 /\ r1 <= r2.
Proof.
  intros Hq Hne.
  pose proof (size_pos _ Hne) as Hn2.
  pose proof (tail_size_mono q1 q2 l Hq) as Hsize.
  assert (Hne1 : upper_tail l q1 <> []).
  { intros Hnil. rewrite Hnil in Hsize.
    change (np.size []) with 0 in Hsize. lra. }
  pose proof (size_pos _ Hne1) as Hn1.
  unfold tail_mean. rewrite !mean_nonempty by assumption.
  eexists _, _. split; [reflexivity|]. split; [reflexivity|].
  apply Qdiv_le_cross; try assumption.
  pose proof (tail_excess_mono q1 q2 l Hq) as Hex.
  pose proof (tail_excess_nonneg q2 l) as Hpos.
  set (S1 := np.sum (upper_tail l q1)) in *.
  set (S2 := np.sum (upper_tail l q2)) in *.
  set (n1 := np.size (upper_tail l q1)) in *.
  set (n2 := np.size (upper_tail l q2)) in *.
  nra.
Qed.

(** *** The empirical quantile grows with the level *)

Lemma Qmin_cases (x y : Q) : Qmin x y = x \/ Qmin x y = y.
Proof.
  unfold Qmin, GenericMinMax.gmin. destruct (x ?= y); auto.
Qed.

Lemma fold_Qmin_spec (rest : list Q) (v : Q) :
  In (fold_right Qmin v rest) (v :: rest)
  /\ forall u, In u (v :: rest) -> fold_right Qmin v rest <= u.
Proof.
  induction rest as [|w rest [IHin IHle]]; cbn [fold_right].
  - split; [by left|]. intros u [<-|[]]. lra.
  - split.
    + destruct (Qmin_cases w (fold_right Qmin v rest)) as [->| ->].
      * right. by left.
      * destruct IHin as [<-|Hin]; [by left | right; by right].
    + intros u Hu.
      assert (Hcase : u = w \/ In u (v :: rest)).
      { destruct Hu as [<-|[<-|Hu]]; [right; by left | by left
                                      | right; by right]. }
      destruct Hcase as [->|Hin].
      * apply Q.le_min_l.
      * eapply Qle_trans; [apply Q.le_min_r | by apply IHle].
Qed.

Lemma minimum_of_spec (a : list Q) :
  a <> [] ->
  exists q, minimum_of a = Some q /\ In q a /\ forall u, In u a -> q <= u.
Proof.
  destruct a as [|v rest]; [congruence|]. intros _.
  exists (fold_right Qmin v rest). split; [reflexivity|].
  apply fold_Qmin_spec.
Qed.

Lemma exists_maximum (l : list Q) :
  l <> [] -> exists m, In m l /\ forall v, In v l -> v <= m.
Proof.
  induction l as [|w l IH]; [congruence|]. intros _.
  destruct l as [|w' l'].
  - exists w. split; [by left|]. intros v [<-|[]]. lra.
  - destruct IH as (m & Hin & Hmax); [discriminate|].
    destruct (Qlt_le_dec m w) as [Hlt|Hle].
    + exists w. split; [by left|].
      intros v [<-|Hv]; [lra|]. specialize (Hmax v Hv). lra.
    + exists m. split; [by right|].
      intros v [<-|Hv]; [exact Hle | by apply Hmax].
Qed.

Lemma filter_all (f : Q -> bool) (l : list Q) :
  (forall v, In v l -> f v = true) -> List.filter f l = l.
Proof.
  induction l as [|w l IH]; intros Hall; cbn [List.filter]; [reflexivity|].
  rewrite (Hall w) by (by left). f_equal. apply IH.
  intros v Hv. apply Hall. by right.
Qed.

Lemma quantile_candidates_nonempty (dataset : list Q) (p : Q) :
  dataset <> [] -> p <= 1 -> quantile_candidates dataset p <> [].
Proof.
  intros Hne Hp.
  destruct (exists_maximum dataset Hne) as (m & Hin & Hmax).
  assert (Hm : In m (quantile_candidates dataset p)).
  { apply filter_In. split; [exact Hin|]. apply Qle_bool_iff.
    unfold count_le. rewrite filter_all.
    - fold (np.size dataset). pose proof (size_nonneg dataset). nra.
    - intros v Hv. apply Qle_bool_iff. by apply Hmax. }
  intros Hnil. rewrite Hnil in Hm. destruct Hm.
Qed.

Lemma quantile_candidates_shrink (dataset : list Q) (p1 p2 v : Q) :
  p1 <= p2 ->
  In v (quantile_candidates dataset p2) ->
  In v (quantile_candidates dataset p1).
Proof.
  intros Hp Hv. apply filter_In in Hv as [Hin Hcount].
  apply filter_In. split; [exact Hin|].
  apply Qle_bool_iff in Hcount. apply Qle_bool_iff.
  pose proof (size_nonneg dataset). nra.
Qed.

(** *** The interpolated quantile grows with the level *)

Lemma insert_sorted_In (v u : Q) (a : list Q) :
  In u (insert_sorted v a) <-> u = v \/ In u a.
Proof.
  induction a as [|w a IH]; cbn [insert_sorted].
  - split; [intros [<-|[]]; by left | intros [->|[]]; by left].
  - destruct (Qle_bool v w); cbn [In]; [intuition congruence|].
    rewrite IH. intuition congruence.
Qed.

Lemma sort_In (u : Q) (a : list Q) : In u (sort a) <-> In u a.
Proof.
  induction a as [|w a IH]; cbn [sort fold_right]; [reflexivity|].
  fold (sort a). rewrite insert_sorted_In, IH. cbn [In]. intuition congruence.
Qed.

Lemma insert_sorted_length (v : Q) (a : list Q) :
  length (insert_sorted v a) = S (length a).
Proof.
  induction a as [|w a IH]; cbn [insert_sorted]; [reflexivity|].
  destruct (Qle_bool v w); cbn [length]; congruence.
Qed.

Lemma sort_length (a : list Q) : length (sort a) = length a.
Proof.
  induction a as [|w a IH]; cbn [sort fold_right]; [reflexivity|].
  fold (sort a). rewrite insert_sorted_length. cbn [length]. congruence.
Qed.

Lemma insert_sorted_sorted (v : Q) (a : list Q) :
  StronglySorted Qle a -> StronglySorted Qle (insert_sorted v a).
Proof.
  induction 1 as [|w a Hsorted IH Hall]; cbn [insert_sorted].
  - repeat constructor.
  - destruct (Qle_bool v w) eqn:Hvw.
    + apply Qle_bool_iff in Hvw. constructor; [by constructor|].
      constructor; [exact Hvw|].
      eapply Forall_impl; [exact Hall|]. intros u Hu. cbn in Hu. lra.
    + assert (Hwv : w <= v).
      { destruct (Qlt_le_dec w v) as [Hlt|Hle]; [lra|].
        apply Qle_bool_iff in Hle. congruence. }
      constructor; [exact IH|].
      apply Forall_forall. intros u Hu.
      apply list_elem_of_In, insert_sorted_In in Hu as [->|Hu]; [exact Hwv|].
      rewrite Forall_forall in Hall. apply Hall. by apply list_elem_of_In.
Qed.

Lemma sort_sorted (a : list Q) : StronglySorted Qle (sort a).
Proof.
  induction a as [|w a IH]; cbn [sort fold_right]; [constructor|].
  by apply insert_sorted_sorted.
Qed.

Lemma sorted_nth (s : list Q) :
  StronglySorted Qle s ->
  forall (i j : nat) (d d' : Q),
    (i <= j)%nat -> (j < length s)%nat -> nth i s d <= nth j s d'.
Proof.
  induction 1 as [|w s Hsorted IH Hall]; intros i j d d' Hij Hj;
    cbn [length] in Hj; [lia|].
  destruct i as [|i], j as [|j]; cbn [nth]; try lia.
  - lra.
  - rewrite Forall_forall in Hall. apply Hall, list_elem_of_In, nth_In. lia.
  - apply IH; lia.
Qed.

Lemma floor_in_range (s : list Q) (h : Q) :
  0 <= h -> h <= np.size s - 1 ->
  (0 <= Qfloor h)%Z /\ (Z.to_nat (Qfloor h) < length s)%nat.
Proof.
  intros H0 Hn.
  assert (Hlow : (0 <= Qfloor h)%Z).
  { change 0%Z with (Qfloor (inject_Z 0)). by apply Qfloor_resp_le. }
  split; [exact Hlow|].
  assert (Hhigh : (Qfloor h <= Z.of_nat (length s) - 1)%Z).
  { rewrite <- (Qfloor_Z (Z.of_nat (length s) - 1)). apply Qfloor_resp_le.
    unfold np.size in Hn. unfold Z.sub.
    rewrite inject_Z_plus, inject_Z_opp. change (inject_Z 1) with 1. lra. }
  lia.
Qed.

(** The interpolated value lies between the entries around the position,
    the upper of which is an entry of the array. *)
Lemma interpolate_between (s : list Q) (h : Q) :
  StronglySorted Qle s -> 0 <= h -> h <= np.size s - 1 ->
  exists below above : Q,
    below = nth (Z.to_nat (Qfloor h)) s 0
    /\ above = nth (S (Z.to_nat (Qfloor h))) s below
    /\ In above s
    /\ below <= above
    /\ interpolate s h == below + (h - inject_Z (Qfloor h)) * (above - below)
    /\ below <= interpolate s h <= above.
Proof.
  intros Hsorted H0 Hn.
  destruct (floor_in_range s h H0 Hn) as [Hk Hi].
  set (i := Z.to_nat (Qfloor h)) in *.
  set (below := nth i s 0). set (above := nth (S i) s below).
  assert (Hin : In above s /\ below <= above).
  { destruct (Nat.lt_ge_cases (S i) (length s)) as [Hlt|Hge].
    - split; [subst above; by apply nth_In|].
      subst below above. apply sorted_nth; auto.
    - subst above. rewrite nth_overflow by exact Hge.
      split; [subst below; by apply nth_In | lra]. }
  destruct Hin as [Hin Hle].
  exists below, above. repeat split; auto; unfold interpolate;
    fold i; fold below; fold above; try reflexivity.
  - pose proof (Qfloor_le h). nra.
  - pose proof (Qlt_floor h) as Hlt. rewrite inject_Z_plus in Hlt.
    change (inject_Z 1) with 1 in Hlt. pose proof (Qfloor_le h). nra.
Qed.

Lemma interpolate_mono (s : list Q) (h1 h2 : Q) :
  StronglySorted Qle s -> 0 <= h1 -> h1 <= h2 -> h2 <= np.size s - 1 ->
  interpolate s h1 <= interpolate s h2.
Proof.
  intros Hsorted H0 H12 Hn.
  destruct (interpolate_between s h1 Hsorted H0 ltac:(lra))
    as (b1 & a1 & Hb1 & Ha1 & _ & Hle1 & Heq1 & Hbt1).
  destruct (interpolate_between s h2 Hsorted ltac:(lra) Hn)
    as (b2 & a2 & Hb2 & Ha2 & _ & Hle2 & Heq2 & Hbt2).
  destruct (floor_in_range s h1 H0 ltac:(lra)) as [Hk1 Hi1].
  destruct (floor_in_range s h2 ltac:(lra) Hn) as [Hk2 Hi2].
  pose proof (Qfloor_resp_le h1 h2 H12) as Hfloor.
  destruct (Z.eq_dec (Qfloor h1) (Qfloor h2)) as [Hsame|Hdiff].
  - rewrite Heq1, Heq2. rewrite Hsame in *. subst b1 a1 b2 a2.
    set (b := nth _ s 0) in *. set (a := nth _ s b) in *. nra.
  - assert (Hnext : (S (Z.to_nat (Qfloor h1)) <= Z.to_nat (Qfloor h2))%nat)
      by lia.
    assert (Hstep : a1 <= b2).
    { subst a1 b2. apply sorted_nth; auto. }
    lra.
Qed.

(** The quantiles of a sample of five, as NumPy gives them. *)
Example linear_quantile_example :
  sort [3; 1; 2; 7; 5] = [1; 2; 3; 5; 7]
  /\ linear_quantile [3; 1; 2; 7; 5] (95 # 100) = Some (660 # 100)
  /\ linear_quantile [3; 1; 2; 7; 5] (1 # 2) = Some (6 # 2).
Proof. repeat split; reflexivity. Qed.

Lemma interpolated_superquantile_grows (dataset : list Q) (a1 a2 : Q) :
  dataset <> [] -> 0 <= a1 -> a1 <= a2 -> a2 <= 1 ->
  exists r1 r2 : Q,
    interpolated_superquantile dataset a1 = num r1
    /\ interpolated_superquantile dataset a2 = num r2
    /\ r1 <= r2.
Proof.
  intros Hne H0 H12 H1.
  pose proof (size_pos dataset Hne) as Hn.
  assert (Hone : 1 <= np.size dataset).
  { destruct dataset as [|v rest]; [congruence|].
    rewrite size_cons. pose proof (size_nonneg rest). lra. }
  assert (Hsize : np.size (sort dataset) = np.size dataset)
    by (unfold np.size; by rewrite sort_length).
  pose proof (sort_sorted dataset) as Hsorted.
  unfold interpolated_superquantile, linear_quantile.
  destruct dataset as [|v rest] eqn:Hd; [congruence|]. rewrite <- Hd in *.
  apply tail_mean_mono.
  - apply interpolate_mono; rewrite ?Hsize; auto; nra.
  - destruct (interpolate_between (sort dataset) (a2 * (np.size dataset - 1))
                Hsorted) as (_ & above & _ & _ & Hin & _ & _ & _ & Hle);
      rewrite ?Hsize; try nra.
    assert (Hq : In above
                    (upper_tail dataset
                       (interpolate (sort dataset)
                          (a2 * (np.size dataset - 1))))).
    { apply filter_In. split; [by apply sort_In|]. by apply Qle_bool_iff. }
    intros Hnil. rewrite Hnil in Hq. destruct Hq.
Qed.

(** C8. For a non-empty sample and levels [a1 <= a2] in the unit interval,
    the superquantile at both levels is a number, and the one at [a2] is at
    least the one at [a1]. That holds with the empirical quantile for the
    cut, and with the quantile that NumPy interpolates as well. *)
Theorem alpha_superquantile_monotone (dataset : list Q) (a1 a2 : Q) :
  dataset <> [] -> 0 < a1 -> a1 <= a2 -> a2 < 1 ->
  (exists r1 r2 : Q,
      alpha_superquantile dataset a1 = num r1
      /\ alpha_superquantile dataset a2 = num r2
      /\ r1 <= r2)
  /\ (exists r1 r2 : Q,
        interpolated_superquantile dataset a1 = num r1
        /\ interpolated_superquantile dataset a2 = num r2
        /\ r1 <= r2).
Proof.
  intros Hne H0 Hle Hlt. split.
  - destruct (minimum_of_spec (quantile_candidates dataset a1))
      as (q1 & Hq1 & _ & Hmin1).
    { apply quantile_candidates_nonempty; [exact Hne | lra]. }
    destruct (minimum_of_spec (quantile_candidates dataset a2))
      as (q2 & Hq2 & Hin2 & _).
    { apply quantile_candidates_nonempty; [exact Hne | lra]. }
    unfold alpha_superquantile, empirical_quantile. rewrite Hq1, Hq2.
    apply tail_mean_mono.
    + apply Hmin1. by apply (quantile_candidates_shrink dataset a1 a2).
    + assert (Hq : In q2 (upper_tail dataset q2)).
      { apply filter_In. split.
        - by apply filter_In in Hin2 as [? _].
        - apply Qle_bool_iff. lra. }
      intros Hnil. rewrite Hnil in Hq. destruct Hq.
  - apply interpolated_superquantile_grows; auto; lra.
Qed.

Lemma alpha_superquantile_monotone_witness :
  alpha_superquantile [3; 1; 2; 7; 5] (1 # 2) = num (15 # 3)
  /\ alpha_superquantile [3; 1; 2; 7; 5] (95 # 100) = num (7 # 1)
  /\ (exists r1 r2 : Q,
         alpha_superquantile [3; 1; 2; 7; 5] (1 # 2) = num r1
         /\ alpha_superquantile [3; 1; 2; 7; 5] (95 # 100) = num r2
         /\ r1 <= r2)
  /\ (exists r1 r2 : Q,
         interpolated_superquantile [3; 1; 2; 7; 5] (1 # 2) = num r1
         /\ interpolated_superquantile [3; 1; 2; 7; 5] (95 # 100) = num r2
         /\ r1 <= r2).
Proof.
  split; [reflexivity|]. split; [reflexivity|].
  apply (alpha_superquantile_monotone [3; 1; 2; 7; 5] (1 # 2) (95 # 100)).
  - discriminate.
  - reflexivity.
  - discriminate.
  - reflexivity.
Defined.

(** Under the other reading of section 4.4, with the cut at the empirical
    quantile of level [1 - alpha], the value would fall as the level rises. *)
Remark lower_cut_superquantile_falls :
  lower_cut_superquantile [0; 1; 2] (1 # 10) = num 2
  /\ lower_cut_superquantile [0; 1; 2] (9 # 10) = num (3 # 3).
Proof. split; reflexivity. Qed.

End superquantile_properties.

(** ** ouu.py: solveOUU *)

Section optimizer_properties.
Import scipy solveOUU.
Context `{Libm} `{Minimizer}.

Lemma progress_never_raises (reported : list (list Q)) :
  forall w : World,
  exists w' : World,
    for_each reported (fun xk => on_pbar (update_progress xk)) w = (inr tt, w')
    /\ np_random w' = np_random w
    /\ bh_random w' = bh_random w.
Proof.
  induction reported as [|xk reported IH]; intros w; cbn [for_each].
  - exists w. auto.
  - set (w1 := {| np_random := np_random w; bh_random := bh_random w;
                  pbar := {| tqdm.total := tqdm.total (pbar w);
                             tqdm.n := tqdm.n (pbar w) + 1 |} |}).
    assert (Hstep : on_pbar (update_progress xk) w = (inr tt, w1))
      by reflexivity.
    destruct (IH w1) as (w' & Hrun & Hnp & Hbh).
    exists w'. unfold bind. rewrite Hstep, Hrun. auto.
Qed.

(** With the progress callback of [solve], a local search returns what the
    minimizer found, and leaves the generators alone. *)
Lemma local_search_run (func : list Q -> Q) (start : list Q)
    (kwargs : gmap string PyVal) (w : World) :
  kwargs !! "callback" = Some (VCallback update_progress) ->
  exists w' : World,
    local_search func start kwargs w
    = (inr (fst (minimize func start kwargs)), w')
    /\ np_random w' = np_random w
    /\ bh_random w' = bh_random w.
Proof.
  intros Hcb. unfold local_search.
  destruct (minimize func start kwargs) as [res reported]. rewrite Hcb.
  destruct (progress_never_raises reported w) as (w' & Hrun & Hnp & Hbh).
  exists w'. unfold bind, ret. rewrite Hrun. auto.
Qed.

Lemma solve_minimizer_kwargs_spec (self : t) (kwargs : gmap string PyVal) :
  solve_minimizer_kwargs self = inr kwargs ->
  kwargs !! "constraints" = Some (VConstraints (constraints self))
  /\ kwargs !! "method" = Some (VStr "COBYLA")
  /\ kwargs !! "tol" = Some (VNum (1 # 100000))
  /\ kwargs !! "callback" = Some (VCallback update_progress)
  /\ exists options : gmap string PyVal,
       kwargs !! "options" = Some (VDict options)
       /\ options !! "maxiter" = Some (VInt (maxfeval self))
       /\ options !! "disp" = Some (VBool false)
       /\ options !! "catol" = Some (VNum (1 # 100000)).
Proof.
  unfold solve_minimizer_kwargs.
  destruct (row (u_bounds self) 1) as [e|upper]; [discriminate|].
  destruct (row (u_bounds self) 0) as [e|lower]; [discriminate|].
  destruct (np.subtract upper lower) as [e|extent]; [discriminate|].
  intros Heq. inversion Heq; subst kwargs; clear Heq.
  repeat split; try reflexivity.
  eexists. repeat split; reflexivity.
Qed.

Lemma adapt_stepsize_within (interval : nat) (lower upper : list Q)
    (r : Runner) :
  search_within lower upper r ->
  search_within lower upper (adapt_stepsize interval r).
Proof.
  intros (Hc & Hl & Hmin & Hmax). unfold adapt_stepsize.
  destruct (_ =? _)%nat; repeat split; cbn; auto; apply Hc || apply Hl.
Qed.

(** One basin hop, when the local search stays within the box: the hop
    proposes a point within the box, so the search state stays within. *)
Lemma one_cycle_within (func : list Q -> Q) (T : Q)
    (kwargs : gmap string PyVal) (interval : nat) (lower upper : list Q)
    (r : Runner) (w : World) :
  Forall2 Qle lower upper ->
  kwargs !! "callback" = Some (VCallback update_progress) ->
  (forall start, within lower upper start ->
     within lower upper (x (fst (minimize func start kwargs)))) ->
  search_within lower upper r ->
  exists (r' : Runner) (w' : World),
    one_cycle func T kwargs interval r w = (inr r', w')
    /\ search_within lower upper r'.
Proof.
  intros Hord Hcb Hmin Hinv. unfold one_cycle.
  pose proof (adapt_stepsize_within interval _ _ _ Hinv) as Hinv1.
  set (r1 := adapt_stepsize interval r) in *.
  destruct Hinv1 as (Hc & Hl & Hlo & Hhi).
  destruct (displacement_clipped (take_step r1) (x (current r1)) (np_random w))
    as (xnew & g' & Hstep & Hlow & Hhigh).
  { by rewrite Hlo, Hhi. }
  { rewrite Hlo. destruct Hc as [Hc _]. symmetry.
    by apply (Forall2_length _ _ _ Hc). }
  rewrite Hlo in Hlow. rewrite Hhi in Hhigh.
  unfold bind at 1. unfold on_np_random. rewrite Hstep. cbv beta iota.
  match goal with
  | |- context [bind (local_search _ _ _) _ ?w1] =>
      destruct (local_search_run func xnew kwargs w1 Hcb) as (w2 & Hls & _ & _)
  end.
  unfold bind at 1. rewrite Hls. cbv beta iota.
  unfold bind at 1. unfold metropolis, bind at 1, next_uniform, ret.
  eexists _, _. split; [reflexivity|].
  assert (Hres : within lower upper (x (fst (minimize func xnew kwargs)))).
  { apply Hmin. split; assumption. }
  repeat split; cbn [current lowest take_step]; auto;
    repeat match goal with
           | |- context [if ?b then _ else _] => destruct b
           end; apply Hres || apply Hc || apply Hl.
Qed.

Lemma cycles_within (func : list Q -> Q) (T : Q)
    (kwargs : gmap string PyVal) (interval : nat) (lower upper : list Q)
    (niter : nat) :
  Forall2 Qle lower upper ->
  kwargs !! "callback" = Some (VCallback update_progress) ->
  (forall start, within lower upper start ->
     within lower upper (x (fst (minimize func start kwargs)))) ->
  forall (r : Runner) (w : World),
    search_within lower upper r ->
    exists (r' : Runner) (w' : World),
      cycles func T kwargs interval niter r w = (inr r', w')
      /\ search_within lower upper r'.
Proof.
  intros Hord Hcb Hmin.
  induction niter as [|niter IH]; intros r w Hinv; cbn [cycles].
  - exists r, w. auto.
  - destruct (one_cycle_within func T kwargs interval lower upper r w
                Hord Hcb Hmin Hinv) as (r1 & w1 & Hrun1 & Hinv1).
    destruct (IH r1 w1 Hinv1) as (r2 & w2 & Hrun2 & Hinv2).
    exists r2, w2. unfold bind. rewrite Hrun1. auto.
Qed.

(** Basin hopping returns a local minimum that the local search found: it
    is within the box when the local search stays within the box. *)
Lemma basinhopping_within (func : list Q -> Q) (start : list Q) (T : Q)
    (niter : Z) (kwargs : gmap string PyVal)
    (step : RandomDisplacementBounds.t) (interval : nat) (disp : bool)
    (w : World) :
  Forall2 Qle (RandomDisplacementBounds.xmin step)
              (RandomDisplacementBounds.xmax step) ->
  kwargs !! "callback" = Some (VCallback update_progress) ->
  (forall from,
     from = start
     \/ within (RandomDisplacementBounds.xmin step)
               (RandomDisplacementBounds.xmax step) from ->
     within (RandomDisplacementBounds.xmin step)
            (RandomDisplacementBounds.xmax step)
            (x (fst (minimize func from kwargs)))) ->
  exists (res : OptimizeResult) (w' : World),
    basinhopping func start T niter kwargs step interval disp w = (inr res, w')
    /\ within (RandomDisplacementBounds.xmin step)
              (RandomDisplacementBounds.xmax step) (x res).
Proof.
  intros Hord Hcb Hmin. unfold basinhopping.
  destruct (local_search_run func start kwargs w Hcb) as (w1 & Hls & _ & _).
  unfold bind at 1. rewrite Hls.
  set (first := fst (minimize func start kwargs)).
  assert (Hfirst : within (RandomDisplacementBounds.xmin step)
                          (RandomDisplacementBounds.xmax step) (x first))
    by (apply Hmin; by left).
  cbv beta iota.
  match goal with
  | |- context [bind (cycles _ _ _ _ ?n ?r0) _ ?w0] =>
      destruct (cycles_within func T kwargs interval _ _ n Hord Hcb
                  (fun from Hin => Hmin from (or_intror Hin)) r0 w0)
        as (r & w2 & Hrun & Hinv)
  end.
  { repeat split; cbn; auto; apply Hfirst. }
  unfold bind at 1. rewrite Hrun. unfold ret.
  eexists _, _. split; [reflexivity|]. cbn [x]. apply Hinv.
Qed.

(** C3, as the code has it. [solve] hands the box to the step generator
    only: every hop starts from a point clipped into the box, but the policy
    returned is what the local minimizer made of it, and the initial guess
    is not clipped at all. With [lower <= upper], the returned policy lies
    within [[lower, upper]] whenever the local minimizer, run with the
    settings and constraints of [solve], lands within the box from the
    initial guess and from every point within the box. *)
Theorem solve_within_bounds_when_local_search_is
    (self : t) (lower upper : list Q) (w : World) :
  u_bounds self !! 0%nat = Some lower ->
  u_bounds self !! 1%nat = Some upper ->
  Forall2 Qle lower upper ->
  local_search_stays_within self lower upper ->
  exists (res : OptimizeResult) (w' : World),
    solve self w = (inr res, w') /\ within lower upper (x res).
Proof.
  intros Hlower Hupper Hord Hstays.
  pose proof (Forall2_length _ _ _ Hord) as Hlen.
  assert (Hsub : np.subtract upper lower
                 = inr (zip_with Qminus upper lower))
    by (apply broadcast2_same_length; congruence).
  assert (Hkw : exists kwargs, solve_minimizer_kwargs self = inr kwargs).
  { unfold solve_minimizer_kwargs, row. rewrite Hupper, Hlower, Hsub. eauto. }
  destruct Hkw as [kwargs Hkw].
  destruct (solve_minimizer_kwargs_spec self kwargs Hkw)
    as (_ & _ & _ & Hcb & _).
  unfold solve. unfold bind at 1. unfold on_pbar at 1, modify.
  unfold bind at 1. rewrite Hkw. unfold lift at 1.
  unfold bind at 1. unfold row at 1. rewrite Hlower. unfold lift at 1.
  unfold bind at 1. unfold row at 1. rewrite Hupper. unfold lift at 1.
  unfold bind at 1. unfold RandomDisplacementBounds.__init__.
  cbn [truthy]. rewrite Hsub. unfold lift at 1.
  match goal with
  | |- context [bind (basinhopping _ _ ?T ?n _ ?step ?i ?d) _ ?w0] =>
      destruct (basinhopping_within (objfun self) (x0 self) T n kwargs step
                  i d w0) as (res & w' & Hrun & Hres)
  end.
  - exact Hord.
  - exact Hcb.
  - intros from Hfrom. by apply Hstays.
  - exists res, w'. unfold bind, ret. rewrite Hrun. auto.
Qed.

(** C9. The keyword dict passed to the constructor leaves no trace in the
    instance: the constructor stores [None], the result of [dict.update],
    so two constructions that differ in that dict only give the same
    instance and the same [solve]; and the settings that [solve] hands to
    the local minimizer are built afresh: method COBYLA, tol 1e-5, maxiter
    equal to [maxfeval], with the constraints of the instance. *)
Theorem solve_ignores_minimizer_kwargs
    (x0 : list Q) (objfun : list Q -> Q) (constraints : list Constraint)
    (optimizer_algorithm : string) (maxfeval maxiter : Z)
    (u_bounds : list (list Q)) (kwargs1 kwargs2 : gmap string PyVal) :
  exists self : t,
    fst (__init__ x0 objfun constraints optimizer_algorithm maxfeval maxiter
                  u_bounds kwargs1) = inr self
    /\ fst (__init__ x0 objfun constraints optimizer_algorithm maxfeval maxiter
                     u_bounds kwargs2) = inr self
    /\ minimizer_kwargs self = VNone
    /\ (forall self1 self2 : t,
          fst (__init__ x0 objfun constraints optimizer_algorithm maxfeval
                        maxiter u_bounds kwargs1) = inr self1 ->
          fst (__init__ x0 objfun constraints optimizer_algorithm maxfeval
                        maxiter u_bounds kwargs2) = inr self2 ->
          solve self1 = solve self2)
    /\ (forall local : gmap string PyVal,
          solve_minimizer_kwargs self = inr local ->
          local !! "method" = Some (VStr "COBYLA")
          /\ local !! "tol" = Some (VNum (1 # 100000))
          /\ local !! "constraints" = Some (VConstraints constraints)
          /\ exists options : gmap string PyVal,
               local !! "options" = Some (VDict options)
               /\ options !! "maxiter" = Some (VInt maxfeval)).
Proof.
  eexists. split; [reflexivity|]. split; [reflexivity|].
  split; [reflexivity|]. split.
  - intros self1 self2 H1 H2. cbn in H1, H2. congruence.
  - intros local Hlocal.
    destruct (solve_minimizer_kwargs_spec _ _ Hlocal)
      as (Hcs & Hmethod & Htol & _ & options & Hopt & Hmaxiter & _).
    repeat split; auto. exists options. auto.
Qed.

End optimizer_properties.

Section optimizer_examples.
Import scipy solveOUU.

(** The constructor leaves [None] in the instance and the constraints in
    the caller's dict. *)
Example solveOUU_init_example :
  exists updated : gmap string PyVal,
    __init__ [1 # 2]%Q examples.away [] default_optimizer_algorithm 60 2
      default_u_bounds default_minimizer_kwargs
    = (inr examples.unconstrained, updated)
    /\ updated !! "constraints" = Some (VConstraints [])
    /\ updated !! "method" = Some (VStr "COBYLA").
Proof. eexists. split; [reflexivity|]. split; reflexivity. Qed.

(** C3 as stated fails: on the unit box, from its midpoint, with
    constraints that say nothing of the box, [solve] returns the minimum of
    the objective at 3. *)
Lemma solve_returns_policy_outside_bounds :
  u_bounds examples.unconstrained = [[0%Q]; [1%Q]]
  /\ (exists res : OptimizeResult,
        fst (@solve examples.libm examples.minimizer examples.unconstrained
               examples.optimizer_world0) = inr res
        /\ x res = [3%Q])
  /\ ~ within [0%Q] [1%Q] [3%Q].
Proof.
  split; [reflexivity|]. split.
  - eexists. split; [vm_compute; reflexivity | reflexivity].
  - intros [_ Hupper]. inversion Hupper as [|? ? ? ? Hle _]; subst.
    revert Hle. vm_compute. intros Hle. apply Hle. reflexivity.
Qed.

(** The compass search only ever moves to feasible neighbours. *)
Lemma fold_better_keeps (f : list Q -> Q) (cs : list Constraint)
    (P : list Q -> Prop) (candidates : list (list Q)) :
  (forall c, In c candidates -> examples.feasible cs c = true -> P c) ->
  forall best, P best -> P (fold_left (examples.better f cs) candidates best).
Proof.
  induction candidates as [|c candidates IH]; intros Hfeas best Hbest;
    cbn [fold_left]; [exact Hbest|].
  apply IH.
  - intros c' Hin. apply Hfeas. by right.
  - unfold examples.better.
    destruct (examples.feasible cs c) eqn:Hc; cbn [andb]; [|exact Hbest].
    destruct (negb _); [|exact Hbest]. apply Hfeas; [by left | exact Hc].
Qed.

Lemma compass_keeps (f : list Q -> Q) (cs : list Constraint) (tol : Q)
    (P : list Q -> Prop) :
  (forall x rho c, P x -> In c (examples.neighbours x rho) ->
     examples.feasible cs c = true -> P c) ->
  forall (budget : nat) (rho : Q) (x : list Q) (reported : list (list Q)),
    P x -> P (fst (examples.compass f cs tol budget rho x reported)).
Proof.
  intros Hstep. induction budget as [|budget IH]; intros rho x reported Hx;
    cbn [examples.compass]; [exact Hx|].
  destruct (Qle_bool (f x) _).
  - destruct (Qle_bool rho tol); [exact Hx | by apply IH].
  - apply IH. apply fold_better_keeps; [|exact Hx].
    intros c Hin Hc. by apply (Hstep x rho c).
Qed.

Lemma neighbours_length (x : list Q) (rho : Q) (c : list Q) :
  In c (examples.neighbours x rho) -> length c = length x.
Proof.
  unfold examples.neighbours. intros Hin.
  apply in_flat_map in Hin as (i & _ & [<-|[<-|[]]]); apply length_alter.
Qed.

Lemma feasible_unit_box (c : list Q) :
  length c = 1%nat ->
  examples.feasible examples.unit_box_constraints c = true ->
  within [0%Q] [1%Q] c.
Proof.
  destruct c as [|v [|? ?]]; try discriminate. intros _.
  unfold examples.feasible, examples.unit_box_constraints.
  cbn [forallb cfun zip_with]. rewrite !andb_true_r.
  intros Hboth. apply andb_true_iff in Hboth as [Hlow Hhigh].
  apply Qle_bool_iff in Hlow, Hhigh.
  split; repeat constructor; lra.
Qed.

Lemma compass_stays_within_unit_box :
  @local_search_stays_within examples.libm examples.minimizer
    examples.boxed [0%Q] [1%Q].
Proof.
  intros kwargs start Hkw Hstart.
  destruct (@solve_minimizer_kwargs_spec examples.libm examples.boxed kwargs
              Hkw) as (Hcs & _ & _ & _ & _).
  cbn [minimize examples.minimizer]. unfold examples.compass_minimize.
  rewrite Hcs. cbn [constraints examples.boxed].
  match goal with
  | |- context [examples.compass ?f ?cs ?tol ?b ?rho ?x0 ?rep] =>
      pose proof (compass_keeps f cs tol (within [0%Q] [1%Q])) as Hkeep;
      specialize (fun Hs => Hkeep Hs b rho x0 rep);
      destruct (examples.compass f cs tol b rho x0 rep) as [found reported]
  end.
  cbn [fst x] in *. apply Hkeep.
  - intros y rho c Hy Hin Hfeas. apply feasible_unit_box; [|exact Hfeas].
    rewrite (neighbours_length _ _ _ Hin).
    destruct Hy as [Hy _]. symmetry. apply (Forall2_length _ _ _ Hy).
  - destruct Hstart as [->|Hin]; [|exact Hin].
    cbn [x0 examples.boxed]. split; repeat constructor; discriminate.
Qed.

Lemma solve_within_bounds_when_local_search_is_witness :
  exists (res : OptimizeResult) (w' : World),
    @solve examples.libm examples.minimizer examples.boxed
      examples.optimizer_world0 = (inr res, w')
    /\ within [0%Q] [1%Q] (x res).
Proof.
  apply (@solve_within_bounds_when_local_search_is
           examples.libm examples.minimizer examples.boxed [0%Q] [1%Q]
           examples.optimizer_world0).
  - reflexivity.
  - reflexivity.
  - repeat constructor. discriminate.
  - exact compass_stays_within_unit_box.
Defined.

End optimizer_examples.

(** ** interruptions.py: how the callback composes and fails *)

Section interruption_composition.
Import interruptions.

Lemma intervened_step_keeps_targets (obj : Object)
    (item : string * Intervention) (name : string) :
  is_Some (obj !! name) -> is_Some (intervened_step obj item !! name).
Proof.
  intros Hsome. unfold intervened_step.
  destruct (obj !! fst item) as [old|]; [|exact Hsome].
  destruct (decide (fst item = name)) as [->|Hne].
  - rewrite lookup_insert_eq. eauto.
  - by rewrite lookup_insert_ne.
Qed.

(** The loop of the callback, as a function on the heap. *)
Lemma callback_loop_run (items : list (string * Intervention)) (l : loc) :
  forall h : Heap,
    targets_exist items (deref h l) ->
    callback_loop items l h = (inr tt, written items l h).
Proof.
  induction items as [|[name a] rest IH]; intros h Hall; [reflexivity|].
  destruct (Hall name a (or_introl eq_refl)) as [old Hold].
  cbn [callback_loop]. unfold bind at 1. unfold getattr. rewrite Hold.
  unfold bind at 1. unfold setattr at 1, modify.
  set (h1 := <[l := <[name := intervene old a]> (deref h l)]> h).
  assert (Hd1 : deref h1 l = intervened_step (deref h l) (name, a)).
  { unfold deref at 1. subst h1. rewrite lookup_insert_eq.
    unfold intervened_step. cbn [fst snd]. by rewrite Hold. }
  rewrite IH.
  - f_equal. unfold written. destruct rest as [|item rest].
    + unfold intervened. cbn [fold_left]. unfold intervened_step.
      cbn [fst snd]. by rewrite Hold.
    + change (intervened ((name, a) :: item :: rest) (deref h l))
        with (intervened (item :: rest) (intervened_step (deref h l) (name, a))).
      rewrite Hd1. subst h1. by rewrite insert_insert_eq.
  - intros name' a' Hin. rewrite Hd1. apply intervened_step_keeps_targets.
    apply (Hall name' a'). by right.
Qed.

Lemma deref_written (items : list (string * Intervention)) (l : loc)
    (h : Heap) :
  deref (written items l h) l = intervened items (deref h l).
Proof.
  unfold written. destruct items; [reflexivity|].
  unfold deref at 1. by rewrite lookup_insert_eq.
Qed.

(** What the loop leaves in each attribute, when no target is named twice. *)
Lemma intervened_lookup (items : list (string * Intervention)) (obj : Object) :
  NoDup (map fst items) -> targets_exist items obj ->
  (forall name a old,
      In (name, a) items -> obj !! name = Some old ->
      intervened items obj !! name = Some (intervene old a))
  /\ (forall name, ~ In name (map fst items) ->
        intervened items obj !! name = obj !! name).
Proof.
  intros Hnd Hall.
  set (h := ({[ 1%positive := obj ]} : Heap)).
  assert (Hd : deref h 1%positive = obj)
    by (unfold deref, h; by rewrite lookup_singleton_eq).
  destruct (callback_loop_spec items 1%positive h Hnd)
    as (h' & Hrun & Hin & Hout & _); [by rewrite Hd|].
  rewrite callback_loop_run in Hrun by (by rewrite Hd).
  inversion Hrun as [Hh']. rewrite <- Hh', deref_written, Hd in Hin, Hout.
  split; assumption.
Qed.

(** The order of the items is immaterial. *)
Lemma intervened_permutation (items1 items2 : list (string * Intervention))
    (obj : Object) :
  Permutation items1 items2 ->
  NoDup (map fst items1) -> targets_exist items1 obj ->
  intervened items1 obj = intervened items2 obj.
Proof.
  intros Hperm Hnd1 Hall1.
  assert (Hnd2 : NoDup (map fst items2)).
  { assert (Hkeys : map fst items1 ≡ₚ map fst items2)
      by (by apply Permutation_map).
    by rewrite <- Hkeys. }
  assert (Hall2 : targets_exist items2 obj).
  { intros name a Hin. apply (Hall1 name a).
    eapply Permutation_in; [symmetry; exact Hperm | exact Hin]. }
  destruct (intervened_lookup items1 obj Hnd1 Hall1) as [Hin1 Hout1].
  destruct (intervened_lookup items2 obj Hnd2 Hall2) as [Hin2 Hout2].
  apply map_eq. intros name.
  destruct (decide (name ∈ map fst items1)) as [Hkey|Hkey];
    rewrite list_elem_of_In in Hkey.
  - apply in_map_iff in Hkey as ([name' a] & Heq & Hin). cbn in Heq. subst name'.
    destruct (Hall1 name a Hin) as [old Hold].
    rewrite (Hin1 name a old Hin Hold).
    symmetry. apply (Hin2 name a old); [|exact Hold].
    eapply Permutation_in; [exact Hperm | exact Hin].
  - rewrite Hout1 by exact Hkey. symmetry. apply Hout2.
    intros Hkey2. apply Hkey.
    eapply Permutation_in; [|exact Hkey2].
    apply Permutation_map. by symmetry.
Qed.

Lemma callback_loop_app (items1 items2 : list (string * Intervention))
    (l : loc) (h : Heap) :
  callback_loop (items1 ++ items2) l h
  = (let! _ := callback_loop items1 l in callback_loop items2 l) h.
Proof.
  revert h. induction items1 as [|[name a] rest IH]; intros h; [reflexivity|].
  cbn [app callback_loop]. unfold bind in *. unfold getattr.
  destruct (deref h l !! name) as [old|]; [|reflexivity].
  unfold setattr, modify. apply IH.
Qed.

(** X1. A target that the model object lacks stops the callback with
    [AttributeError] at that target: the targets before it in the dict have
    been written and stay written, the targets after it are not touched. *)
Theorem ParameterIntervention_missing_target
    (ev : Event) (before after : list (string * Intervention))
    (name : string) (a : Intervention)
    (dynamics : MethodType) (state : State) (h : Heap) :
  targets_exist before (deref h (__self__ dynamics)) ->
  deref h (__self__ dynamics) !! name = None ->
  callback (_ParameterIntervention ev (before ++ (name, a) :: after))
           dynamics state h
  = (inl (AttributeError name), written before (__self__ dynamics) h)
  /\ (forall other,
        ~ In other (map fst before) ->
        deref (written before (__self__ dynamics) h) (__self__ dynamics) !! other
        = deref h (__self__ dynamics) !! other).
Proof.
  intros Hall Hmissing.
  set (l := __self__ dynamics) in *.
  assert (Hkeep : forall other, ~ In other (map fst before) ->
            intervened before (deref h l) !! other = deref h l !! other).
  { clear Hmissing. generalize dependent (deref h l).
    induction before as [|[n b] rest IH]; intros obj Hall other Hni;
      [reflexivity|].
    cbn [intervened fold_left]. fold (intervened rest (intervened_step obj (n, b))).
    cbn [map fst In] in Hni. rewrite IH.
    - unfold intervened_step. cbn [fst snd].
      destruct (obj !! n); [|reflexivity].
      rewrite lookup_insert_ne; [reflexivity | tauto].
    - intros name' a' Hin. apply intervened_step_keeps_targets.
      apply (Hall name' a'). by right.
    - tauto. }
  assert (Hfresh : ~ In name (map fst before)).
  { intros Hin. apply in_map_iff in Hin as ([n b] & Heq & Hin).
    cbn in Heq. subst n. destruct (Hall name b Hin) as [v Hv]. congruence. }
  split.
  - cbn [callback _ParameterIntervention]. fold l. unfold bind at 1.
    rewrite callback_loop_app. unfold bind at 1.
    rewrite callback_loop_run by exact Hall.
    cbn [callback_loop]. unfold bind at 1. unfold getattr.
    rewrite deref_written, (Hkeep name Hfresh), Hmissing. reflexivity.
  - intros other Hni. rewrite deref_written. by apply Hkeep.
Qed.

Lemma ParameterIntervention_missing_target_witness :
  exists h' : Heap,
    callback (_ParameterIntervention (StaticEvent 2)
                [("beta", Constant 1); ("delta", Constant 3);
                 ("gamma", Constant 0)])
             examples.sir_dynamics ∅ examples.sir_heap
    = (inl (AttributeError "delta"), h')
    /\ deref h' 1%positive !! "beta" = Some 1%Q
    /\ deref h' 1%positive !! "gamma" = Some (1 # 5)%Q.
Proof.
  destruct (ParameterIntervention_missing_target (StaticEvent 2)
              [("beta", Constant 1)] [("gamma", Constant 0)] "delta"
              (Constant 3) examples.sir_dynamics ∅ examples.sir_heap)
    as [Hrun Hkeep].
  - intros name a [Heq|[]]. inversion Heq; subst. vm_compute. eauto.
  - reflexivity.
  - eexists. split; [exact Hrun|]. split; [reflexivity|].
    rewrite Hkeep; [reflexivity|].
    intros [Heq|[]]. discriminate.
Defined.

(** X2. The order in which the dict of a handler lists its targets is
    immaterial: two handlers whose items are a permutation of each other,
    with all targets present, leave the same heap. *)
Theorem ParameterIntervention_order_irrelevant
    (ev : Event) (items1 items2 : list (string * Intervention))
    (dynamics : MethodType) (state : State) (h : Heap) :
  Permutation items1 items2 ->
  NoDup (map fst items1) ->
  targets_exist items1 (deref h (__self__ dynamics)) ->
  callback (_ParameterIntervention ev items1) dynamics state h
  = callback (_ParameterIntervention ev items2) dynamics state h
  /\ fst (callback (_ParameterIntervention ev items1) dynamics state h)
     = inr (dynamics, state).
Proof.
  intros Hperm Hnd Hall.
  assert (Hall2 : targets_exist items2 (deref h (__self__ dynamics))).
  { intros name a Hin. apply (Hall name a).
    eapply Permutation_in; [symmetry; exact Hperm | exact Hin]. }
  cbn [callback _ParameterIntervention]. unfold bind.
  rewrite !callback_loop_run by assumption. split; [|reflexivity].
  unfold ret. f_equal. unfold written.
  destruct items1 as [|i1 r1], items2 as [|i2 r2]; try reflexivity.
  - apply Permutation_nil_l in Hperm. discriminate.
  - apply Permutation_nil_r in Hperm. discriminate.
  - f_equal. by apply intervened_permutation.
Qed.

Lemma ParameterIntervention_order_irrelevant_witness :
  callback (_ParameterIntervention (StaticEvent 2) examples.sir_intervention)
           examples.sir_dynamics ∅ examples.sir_heap
  = callback (_ParameterIntervention (StaticEvent 2)
                (rev examples.sir_intervention))
             examples.sir_dynamics ∅ examples.sir_heap.
Proof.
  apply (ParameterIntervention_order_irrelevant (StaticEvent 2)
           examples.sir_intervention (rev examples.sir_intervention)
           examples.sir_dynamics ∅ examples.sir_heap).
  - apply Permutation_rev.
  - apply (bool_decide_unpack _). vm_compute. exact I.
  - intros name a [Heq|[Heq|[]]]; inversion Heq; subst; vm_compute; eauto.
Defined.

Lemma intervened_keeps_targets (items items' : list (string * Intervention))
    (obj : Object) :
  targets_exist items' obj -> targets_exist items' (intervened items obj).
Proof.
  revert obj. induction items as [|item items IH]; intros obj Hall;
    [exact Hall|].
  cbn [intervened fold_left]. fold (intervened items (intervened_step obj item)).
  apply IH. intros name a Hin. apply intervened_step_keeps_targets.
  by apply (Hall name a).
Qed.

Lemma written_app (items1 items2 : list (string * Intervention)) (l : loc)
    (h : Heap) :
  targets_exist (items1 ++ items2) (deref h l) ->
  written (items1 ++ items2) l h = written items2 l (written items1 l h).
Proof.
  intros Hall.
  assert (Hall1 : targets_exist items1 (deref h l)).
  { intros name a Hin. apply (Hall name a), in_or_app. by left. }
  assert (Hall2 : targets_exist items2 (deref (written items1 l h) l)).
  { rewrite deref_written. apply intervened_keeps_targets.
    intros name a Hin. apply (Hall name a), in_or_app. by right. }
  pose proof (callback_loop_app items1 items2 l h) as Happ.
  rewrite callback_loop_run in Happ by exact Hall.
  unfold bind in Happ. rewrite callback_loop_run in Happ by exact Hall1.
  rewrite callback_loop_run in Happ by exact Hall2.
  by inversion Happ.
Qed.

(** X3. A handler that assigns constants only is idempotent: firing it a
    second time on the heap that the first firing left changes nothing. *)
Theorem ParameterIntervention_constants_idempotent
    (ev : Event) (items : list (string * Intervention))
    (dynamics : MethodType) (state : State) (h : Heap) :
  NoDup (map fst items) ->
  targets_exist items (deref h (__self__ dynamics)) ->
  Forall (fun item => is_constant (snd item)) items ->
  exists h1 : Heap,
    callback (_ParameterIntervention ev items) dynamics state h
    = (inr (dynamics, state), h1)
    /\ callback (_ParameterIntervention ev items) dynamics state h1
       = (inr (dynamics, state), h1).
Proof.
  intros Hnd Hall Hconst.
  set (l := __self__ dynamics) in *.
  set (obj1 := intervened items (deref h l)).
  assert (Hall1 : targets_exist items obj1)
    by (by apply intervened_keeps_targets).
  destruct (intervened_lookup items (deref h l) Hnd Hall) as [Hin _].
  destruct (intervened_lookup items obj1 Hnd Hall1) as [Hin1 Hout1].
  assert (Hfix : intervened items obj1 = obj1).
  { apply map_eq. intros name.
    destruct (decide (name ∈ map fst items)) as [Hkey|Hkey];
      rewrite list_elem_of_In in Hkey.
    - apply in_map_iff in Hkey as ([name' a] & Heq & Hitem).
      cbn in Heq. subst name'.
      destruct (Hall name a Hitem) as [old Hold].
      destruct (Hall1 name a Hitem) as [old1 Hold1].
      rewrite (Hin1 name a old1 Hitem Hold1).
      fold obj1 in Hin. rewrite (Hin name a old Hitem Hold).
      rewrite Forall_forall in Hconst.
      specialize (Hconst (name, a)). cbn in Hconst.
      destruct a as [v|f]; [reflexivity|].
      destruct Hconst. by apply list_elem_of_In.
    - by apply Hout1. }
  exists (written items l h).
  cbn [callback _ParameterIntervention]. fold l. unfold bind.
  rewrite callback_loop_run by exact Hall. split; [reflexivity|].
  rewrite callback_loop_run by (by rewrite deref_written).
  unfold ret. f_equal. unfold written at 1.
  destruct items as [|item items']; [reflexivity|].
  rewrite deref_written. fold obj1. rewrite Hfix.
  unfold written. fold obj1. by rewrite insert_insert_eq.
Qed.

Lemma ParameterIntervention_constants_idempotent_witness :
  exists h1 : Heap,
    callback (_ParameterIntervention (StaticEvent 2)
                [("beta", Constant 1); ("gamma", Constant 0)])
             examples.sir_dynamics ∅ examples.sir_heap
    = (inr (examples.sir_dynamics, ∅), h1)
    /\ callback (_ParameterIntervention (StaticEvent 2)
                   [("beta", Constant 1); ("gamma", Constant 0)])
                examples.sir_dynamics ∅ h1
       = (inr (examples.sir_dynamics, ∅), h1).
Proof.
  apply (ParameterIntervention_constants_idempotent (StaticEvent 2)
           [("beta", Constant 1); ("gamma", Constant 0)]
           examples.sir_dynamics ∅ examples.sir_heap).
  - apply (bool_decide_unpack _). vm_compute. exact I.
  - intros name a [Heq|[Heq|[]]]; inversion Heq; subst; vm_compute; eauto.
  - repeat constructor.
Defined.

(** A callable intervention is not idempotent: the example that adds 1 to
    ["gamma"] adds it again at a second firing. *)
Remark callable_intervention_accumulates :
  let handler := _ParameterIntervention (StaticEvent 2)
                   [("gamma", Callable (fun g => g + 1)%Q)] in
  let h1 := snd (callback handler examples.sir_dynamics ∅ examples.sir_heap) in
  let h2 := snd (callback handler examples.sir_dynamics ∅ h1) in
  deref h1 1%positive !! "gamma" = Some ((1 # 5) + 1)%Q
  /\ deref h2 1%positive !! "gamma" = Some ((1 # 5) + 1 + 1)%Q.
Proof. split; reflexivity. Qed.

(** X4. Two handlers whose targets are disjoint commute: fired one after
    the other on the same model object, in either order, they leave the
    same heap. *)
Theorem ParameterIntervention_disjoint_handlers_commute
    (ev1 ev2 : Event) (items1 items2 : list (string * Intervention))
    (dynamics : MethodType) (state : State) (h : Heap) :
  NoDup (map fst (items1 ++ items2)) ->
  targets_exist (items1 ++ items2) (deref h (__self__ dynamics)) ->
  (let! fired := callback (_ParameterIntervention ev1 items1) dynamics state in
   callback (_ParameterIntervention ev2 items2) (fst fired) (snd fired)) h
  = (let! fired := callback (_ParameterIntervention ev2 items2) dynamics state in
     callback (_ParameterIntervention ev1 items1) (fst fired) (snd fired)) h
  /\ (let! fired := callback (_ParameterIntervention ev1 items1) dynamics state in
      callback (_ParameterIntervention ev2 items2) (fst fired) (snd fired)) h
     = (inr (dynamics, state),
        written (items1 ++ items2) (__self__ dynamics) h).
Proof.
  intros Hnd Hall.
  set (l := __self__ dynamics) in *.
  assert (Hperm : Permutation (items1 ++ items2) (items2 ++ items1))
    by apply Permutation_app_comm.
  assert (Hall' : targets_exist (items2 ++ items1) (deref h l)).
  { intros name a Hin. apply (Hall name a).
    eapply Permutation_in; [symmetry; exact Hperm | exact Hin]. }
  assert (Hone : forall evA evB itemsA itemsB,
            targets_exist (itemsA ++ itemsB) (deref h l) ->
            (let! fired := callback (_ParameterIntervention evA itemsA)
                             dynamics state in
             callback (_ParameterIntervention evB itemsB)
                      (fst fired) (snd fired)) h
            = (inr (dynamics, state), written (itemsA ++ itemsB) l h)).
  { intros evA evB itemsA itemsB HallAB.
    rewrite written_app by exact HallAB.
    cbn [callback _ParameterIntervention]. fold l. unfold bind.
    rewrite callback_loop_run.
    - cbn [fst snd ret]. fold l. rewrite callback_loop_run; [reflexivity|].
      rewrite deref_written. apply intervened_keeps_targets.
      intros name a Hin. apply (HallAB name a), in_or_app. by right.
    - intros name a Hin. apply (HallAB name a), in_or_app. by left. }
  rewrite (Hone ev1 ev2 items1 items2 Hall).
  rewrite (Hone ev2 ev1 items2 items1 Hall').
  split; [|reflexivity]. f_equal. unfold written.
  destruct (items1 ++ items2) as [|i r] eqn:H12,
           (items2 ++ items1) as [|i' r'] eqn:H21; try reflexivity.
  - apply Permutation_nil_l in Hperm. discriminate.
  - apply Permutation_nil_r in Hperm. discriminate.
  - f_equal.
    apply intervened_permutation; [exact Hperm | exact Hnd | exact Hall].
Qed.

Lemma ParameterIntervention_disjoint_handlers_commute_witness :
  (let! fired := callback (_ParameterIntervention (StaticEvent 1)
                             [("beta", Constant 1)])
                          examples.sir_dynamics ∅ in
   callback (_ParameterIntervention (StaticEvent 2)
               [("gamma", Callable (fun g => g + 1)%Q)])
            (fst fired) (snd fired)) examples.sir_heap
  = (let! fired := callback (_ParameterIntervention (StaticEvent 2)
                               [("gamma", Callable (fun g => g + 1)%Q)])
                            examples.sir_dynamics ∅ in
     callback (_ParameterIntervention (StaticEvent 1) [("beta", Constant 1)])
              (fst fired) (snd fired)) examples.sir_heap.
Proof.
  apply (ParameterIntervention_disjoint_handlers_commute
           (StaticEvent 1) (StaticEvent 2) [("beta", Constant 1)]
           [("gamma", Callable (fun g => g + 1)%Q)]
           examples.sir_dynamics ∅ examples.sir_heap).
  - apply (bool_decide_unpack _). vm_compute. exact I.
  - intros name a [Heq|[Heq|[]]]; inversion Heq; subst; vm_compute; eauto.
Defined.

End interruption_composition.

(** ** ouu.py: RandomDisplacementBounds, the step and its errors *)

Section displacement_step.
Import RandomDisplacementBounds.
Local Open Scope Q_scope.


(** The point that the step generator returns, for a point of the shape of
    the bounds, and the generator it leaves. *)
Lemma displacement_run (self : t) (x : list Q) (g : RandomState) :
  length x = length (xmin self) ->
  length (xmin self) = length (xmax self) ->
  __call__ self x g
  = (inr (zip_with Qmin (xmax self)
            (zip_with Qmax
               (zip_with Qplus x
                  (map (fun i => - stepsize self
                                 + (stepsize self - - stepsize self) * g i)
                       (seq 0 (length x))))
               (xmin self))),
     fun i => g (length x + i)%nat).
Proof.
  intros Hlen Hbounds.
  unfold __call__, bind, np.random_uniform, lift, np.add.
  rewrite broadcast2_same_length by (by rewrite length_map, length_seq).
  rewrite clip_same_length; [reflexivity | | exact Hbounds].
  rewrite zip_with_same_length; [exact Hlen|].
  by rewrite length_map, length_seq.
Qed.

(** X6. From a point within the box, with variates in the unit interval
    and a non-negative step size, no component of the point returned is
    further than the step size from where it was: clipping towards the box
    never lengthens the step. The call uses up one variate per component. *)
Theorem RandomDisplacementBounds_step_within_stepsize
    (self : t) (x : list Q) (g : RandomState) :
  Forall2 Qle (xmin self) x ->
  Forall2 Qle x (xmax self) ->
  0 <= stepsize self ->
  (forall i, 0 <= g i <= 1) ->
  exists (xnew : list Q) (g' : RandomState),
    __call__ self x g = (inr xnew, g')
    /\ Forall2 (fun old new => old - stepsize self <= new <= old + stepsize self)
               x xnew
    /\ (forall i, g' i = g (length x + i)%nat).
Proof.
  intros Hlow Hhigh Hstep Hunit.
  pose proof (Forall2_length _ _ _ Hlow) as Hlen1.
  pose proof (Forall2_length _ _ _ Hhigh) as Hlen2.
  rewrite displacement_run by congruence.
  eexists _, _. split; [reflexivity|]. split; [|reflexivity].
  set (noise := map _ (seq 0 (length x))).
  assert (Hnoise : length noise = length x)
    by (subst noise; by rewrite length_map, length_seq).
  apply Forall2_same_length_lookup_2.
  - rewrite !length_zip_with, Hnoise. lia.
  - intros i old new Hold Hnew.
    apply lookup_zip_with_Some in Hnew as (hi & lifted & -> & Hhi & Hlifted).
    apply lookup_zip_with_Some in Hlifted as (moved & lo & -> & Hmoved & Hlo).
    apply lookup_zip_with_Some in Hmoved as (old' & n & -> & Hold' & Hn).
    assert (old' = old) as -> by congruence.
    subst noise. rewrite list_lookup_fmap in Hn.
    destruct (seq 0 (length x) !! i) as [j|] eqn:Hj; [|discriminate].
    cbn in Hn. injection Hn as <-.
    specialize (Hunit j).
    pose proof (Forall2_lookup_lr _ _ _ _ _ _ Hlow Hlo Hold) as Hle1.
    pose proof (Forall2_lookup_lr _ _ _ _ _ _ Hhigh Hold Hhi) as Hle2.
    set (d := - stepsize self + (stepsize self - - stepsize self) * g j) in *.
    assert (Hbound : - stepsize self <= d <= stepsize self) by (subst d; nra).
    clearbody d. split.
    + apply Q.min_glb; [lra|].
      eapply Qle_trans; [|apply Q.le_max_l]. lra.
    + eapply Qle_trans; [apply Q.le_min_r|].
      apply Q.max_lub; lra.
Qed.

Lemma RandomDisplacementBounds_step_within_stepsize_witness :
  exists (xnew : list Q) (g' : RandomState),
    __call__ examples.unit_box [9 # 10] (examples.lcg 0) = (inr xnew, g')
    /\ Forall2 (fun old new => old - (3 # 10) <= new <= old + (3 # 10))
               [9 # 10] xnew
    /\ (forall i, g' i = examples.lcg 0 (1 + i)%nat).
Proof.
  apply (RandomDisplacementBounds_step_within_stepsize examples.unit_box
           [9 # 10] (examples.lcg 0)).
  - repeat constructor. discriminate.
  - repeat constructor. discriminate.
  - discriminate.
  - intros i. unfold examples.lcg.
    pose proof (Z.mod_pos_bound (0 * 31 + Z.of_nat i * 17 + 7) 100 eq_refl)
      as [Hlo Hhi].
    unfold Qle. cbn [Qnum Qden]. lia.
Defined.

(** X7. Bounds whose shapes NumPy cannot broadcast are rejected by the
    constructor, with [ValueError], only when it has to derive the step
    size. Given a truthy step size it builds the instance without looking
    at the shapes, and it is every later call that raises [ValueError]. *)
Theorem RandomDisplacementBounds_incompatible_bounds `{Libm}
    (lower upper : list Q) (given : PyObj) :
  length upper <> length lower ->
  length upper <> 1%nat ->
  length lower <> 1%nat ->
  (truthy given = false -> __init__ lower upper given = inl ValueError)
  /\ (truthy given = true ->
      exists self : t,
        __init__ lower upper given = inr self
        /\ stepsize self = as_number given
        /\ forall x g, fst (__call__ self x g) = inl ValueError).
Proof.
  intros Hdiff Hupper Hlower. split; intros Htruth;
    unfold __init__; rewrite Htruth.
  - unfold np.subtract. by rewrite broadcast2_mismatch.
  - eexists. split; [reflexivity|]. split; [reflexivity|].
    intros x g. unfold __call__, bind, np.random_uniform, lift, np.add.
    rewrite broadcast2_same_length by (by rewrite length_map, length_seq).
    cbn [xmin xmax]. set (moved := zip_with Qplus x _).
    unfold np.clip, np.maximum, np.minimum, np.broadcast2 at 1.
    destruct (length moved =? length lower)%nat eqn:Hsame.
    + apply Nat.eqb_eq in Hsame. cbn [fst].
      rewrite broadcast2_mismatch; [reflexivity | | exact Hupper |].
      * rewrite length_zip_with. lia.
      * rewrite length_zip_with. lia.
    + rewrite (proj2 (Nat.eqb_neq _ _) Hlower).
      destruct (length moved =? 1)%nat; cbn [fst]; [|reflexivity].
      rewrite broadcast2_mismatch; [reflexivity | | exact Hupper |];
        rewrite length_map; congruence.
Qed.

Lemma RandomDisplacementBounds_incompatible_bounds_witness :
  @__init__ examples.libm [0; 0] [1; 1; 1] PyNone = inl ValueError
  /\ exists self : t,
       @__init__ examples.libm [0; 0] [1; 1; 1] (PyFloat (1 # 2)) = inr self
       /\ stepsize self = 1 # 2
       /\ forall x g, fst (__call__ self x g) = inl ValueError.
Proof.
  destruct (@RandomDisplacementBounds_incompatible_bounds examples.libm
              [0; 0] [1; 1; 1] PyNone) as [Hnone _]; try (cbn; lia).
  destruct (@RandomDisplacementBounds_incompatible_bounds examples.libm
              [0; 0] [1; 1; 1] (PyFloat (1 # 2))) as [_ Hgiven];
    try (cbn; lia).
  split; [by apply Hnone | by apply Hgiven].
Defined.

End displacement_step.

(** ** ouu.py: computeRisk, its logging times and its failures *)

Section propagator_edges.
Import interruptions pyro computeRisk.
Local Open Scope Q_scope.





Section with_seeding.
Context `{torch.Seeding}.



End with_seeding.


End propagator_edges.

(** ** ouu.py: solveOUU, the caller's dict, the bounds array, the progress *)

Section optimizer_edges.
Import scipy solveOUU.

(** X11. The constructor writes into the keyword dict it is given: on
    return the dict holds the constraints under ["constraints"], in place
    of any value that key had, and every other key as it was. *)
Theorem solveOUU_init_writes_callers_dict
    (x0 : list Q) (objfun : list Q -> Q) (constraints : list Constraint)
    (optimizer_algorithm : string) (maxfeval maxiter : Z)
    (u_bounds : list (list Q)) (kwargs : gmap string PyVal) :
  exists (self : t) (updated : gmap string PyVal),
    __init__ x0 objfun constraints optimizer_algorithm maxfeval maxiter
             u_bounds kwargs = (inr self, updated)
    /\ updated !! "constraints" = Some (VConstraints constraints)
    /\ (forall key, key <> "constraints" -> updated !! key = kwargs !! key)
    /\ solveOUU.constraints self = constraints.
Proof.
  eexists _, _. split; [reflexivity|]. split; [|split; [|reflexivity]].
  - apply lookup_union_Some_l. apply lookup_singleton_eq.
  - intros key Hkey. rewrite lookup_union_r; [reflexivity|].
    by apply lookup_singleton_ne.
Qed.

Section with_collaborators.
Context `{Libm} `{Minimizer}.

(** X12. A bounds array with fewer than two rows makes [solve] raise
    [IndexError] as soon as it reads row 1: the progress bar has been
    created, and neither generator has been drawn from. *)
Theorem solve_needs_two_rows (self : t) (w : World) :
  (length (u_bounds self) < 2)%nat ->
  solve self w
  = (inl IndexError,
     {| np_random := np_random w;
        bh_random := bh_random w;
        pbar := {| tqdm.total := maxfeval self * (maxiter self + 1);
                   tqdm.n := 0 |} |}).
Proof.
  intros Hrows. unfold solve, bind at 1, on_pbar, modify.
  unfold bind at 1, lift, solve_minimizer_kwargs, row.
  rewrite (lookup_ge_None_2 (u_bounds self) 1) by lia. reflexivity.
Qed.

(** *** The progress bar *)

Lemma progressed_refl (w : World) : progressed 0 w w.
Proof. split; [reflexivity | lia]. Qed.

Lemma progressed_trans (b1 b2 : Z) (w w1 w2 : World) :
  progressed b1 w w1 -> progressed b2 w1 w2 -> progressed (b1 + b2) w w2.
Proof. intros [Ht1 Hn1] [Ht2 Hn2]. split; [congruence | lia]. Qed.

Lemma progressed_weaken (b b' : Z) (w w' : World) :
  (b <= b')%Z -> progressed b w w' -> progressed b' w w'.
Proof. intros Hle [Ht Hn]. split; [exact Ht | lia]. Qed.

Lemma advances_bind {A B} (b1 b2 : Z) (m : Eff World A) (k : A -> Eff World B) :
  (0 <= b2)%Z -> advances b1 m -> (forall a, advances b2 (k a)) ->
  advances (b1 + b2) (bind m k).
Proof.
  intros Hb2 Hm Hk w. unfold bind. specialize (Hm w).
  destruct (m w) as [[e|a] w1]; cbn [snd] in *.
  - eapply progressed_weaken; [|exact Hm]. lia.
  - eapply progressed_trans; [exact Hm | apply Hk].
Qed.

Lemma advances_weaken {A} (b b' : Z) (m : Eff World A) :
  (b <= b')%Z -> advances b m -> advances b' m.
Proof. intros Hle Hm w. eapply progressed_weaken; [exact Hle | apply Hm]. Qed.

Lemma advances_ret {A} (a : A) : advances 0 (ret a : Eff World A).
Proof. intros w. apply progressed_refl. Qed.

Lemma advances_lift {A} (r : Result A) : advances 0 (lift r : Eff World A).
Proof. intros w. apply progressed_refl. Qed.

Lemma advances_on_np_random {A} (m : Eff RandomState A) :
  advances 0 (on_np_random m).
Proof.
  intros w. unfold on_np_random. destruct (m (np_random w)).
  split; [reflexivity | cbn; lia].
Qed.

Lemma advances_next_uniform : advances 0 next_uniform.
Proof. intros w. split; [reflexivity | cbn; lia]. Qed.

Lemma advances_progress (reported : list (list Q)) :
  advances (Z.of_nat (length reported))
           (for_each reported (fun xk => on_pbar (update_progress xk))).
Proof.
  induction reported as [|xk reported IH]; cbn [for_each].
  - apply advances_ret.
  - cbn [length]. rewrite Nat2Z.inj_succ, <- Z.add_1_l.
    apply advances_bind; [lia | | intros _; exact IH].
    intros w. split; [reflexivity | cbn; lia].
Qed.

Lemma advances_local_search (func : list Q -> Q) (start : list Q)
    (kwargs : gmap string PyVal) (bound : nat) :
  kwargs !! "callback" = Some (VCallback update_progress) ->
  (length (snd (minimize func start kwargs)) <= bound)%nat ->
  advances (Z.of_nat bound) (local_search func start kwargs).
Proof.
  intros Hcb Hbound. unfold local_search.
  destruct (minimize func start kwargs) as [res reported]. rewrite Hcb.
  cbn [snd] in Hbound.
  apply (advances_weaken (Z.of_nat (length reported) + 0)); [lia|].
  apply advances_bind; [lia | apply advances_progress |].
  intros _. apply advances_ret.
Qed.

Lemma advances_one_cycle (func : list Q -> Q) (T : Q)
    (kwargs : gmap string PyVal) (interval bound : nat) (r : Runner) :
  kwargs !! "callback" = Some (VCallback update_progress) ->
  (forall start, (length (snd (minimize func start kwargs)) <= bound)%nat) ->
  advances (Z.of_nat bound) (one_cycle func T kwargs interval r).
Proof.
  intros Hcb Hbound. unfold one_cycle.
  apply (advances_weaken (0 + (Z.of_nat bound + (0 + 0)))); [lia|].
  apply advances_bind; [lia | apply advances_on_np_random |].
  intros x_after_step.
  apply advances_bind; [lia | by apply advances_local_search |].
  intros minres. apply advances_bind; [lia | | intros; apply advances_ret].
  unfold metropolis.
  apply (advances_weaken (0 + 0)); [lia|].
  apply advances_bind; [lia | apply advances_next_uniform |].
  intros; apply advances_ret.
Qed.

Lemma advances_cycles (func : list Q -> Q) (T : Q)
    (kwargs : gmap string PyVal) (interval bound : nat) (niter : nat) :
  kwargs !! "callback" = Some (VCallback update_progress) ->
  (forall start, (length (snd (minimize func start kwargs)) <= bound)%nat) ->
  forall r : Runner,
    advances (Z.of_nat niter * Z.of_nat bound)
             (cycles func T kwargs interval niter r).
Proof.
  intros Hcb Hbound. induction niter as [|niter IH]; intros r; cbn [cycles].
  - apply advances_ret.
  - apply (advances_weaken (Z.of_nat bound + Z.of_nat niter * Z.of_nat bound));
      [lia|].
    apply advances_bind; [lia | by apply advances_one_cycle | exact IH].
Qed.

Lemma advances_basinhopping (func : list Q -> Q) (start : list Q) (T : Q)
    (niter : Z) (kwargs : gmap string PyVal)
    (step : RandomDisplacementBounds.t) (interval : nat) (disp : bool)
    (bound : nat) :
  kwargs !! "callback" = Some (VCallback update_progress) ->
  (forall from, (length (snd (minimize func from kwargs)) <= bound)%nat) ->
  advances ((1 + Z.of_nat (Z.to_nat niter)) * Z.of_nat bound)
           (basinhopping func start T niter kwargs step interval disp).
Proof.
  intros Hcb Hbound. unfold basinhopping.
  apply (advances_weaken
           (Z.of_nat bound
            + (Z.of_nat (Z.to_nat niter) * Z.of_nat bound + 0))); [lia|].
  apply advances_bind; [lia | by apply advances_local_search |].
  intros minres.
  apply advances_bind; [lia | by apply advances_cycles |].
  intros; apply advances_ret.
Qed.

Lemma advances_lift_bind_inl {A B} (e : Exn) (k : A -> Eff World B) :
  advances 0 (bind (lift (inl e)) k).
Proof. intros w. apply progressed_refl. Qed.

Lemma advances_lift_bind_inr {A B} (b : Z) (a : A) (k : A -> Eff World B) :
  advances b (k a) -> advances b (bind (lift (inr a)) k).
Proof. intros Hk w. apply Hk. Qed.

(** X13. The total that [solve] gives its progress bar is never overrun:
    with non-negative budgets and a local minimizer that reports at most
    [maxfeval] points per search, the count of the bar ends between 0 and
    its total, [maxfeval * (maxiter + 1)], whether [solve] returns or
    raises. *)
Theorem solve_progress_within_total (self : t) (w : World) :
  (0 <= maxfeval self)%Z ->
  (0 <= maxiter self)%Z ->
  reports_at_most self (Z.to_nat (maxfeval self)) ->
  tqdm.total (pbar (snd (solve self w))) = (maxfeval self * (maxiter self + 1))%Z
  /\ (0 <= tqdm.n (pbar (snd (solve self w)))
      <= maxfeval self * (maxiter self + 1))%Z.
Proof.
  intros Hfeval Hiter Hreports.
  set (total := (maxfeval self * (maxiter self + 1))%Z).
  set (w0 := {| np_random := np_random w; bh_random := bh_random w;
                pbar := {| tqdm.total := total; tqdm.n := 0 |} |}).
  assert (Hrest : forall (m : Eff World OptimizeResult),
            advances total m ->
            tqdm.total (pbar (snd (m w0))) = total
            /\ (0 <= tqdm.n (pbar (snd (m w0))) <= total)%Z).
  { intros m Hm. destruct (Hm w0) as [Ht Hn]. cbn in Ht, Hn. split; [exact Ht | lia]. }
  unfold solve, bind at 1, on_pbar at 1, modify. fold total. fold w0.
  apply Hrest.
  assert (Htotal : (0 <= total)%Z) by (subst total; nia).
  destruct (solve_minimizer_kwargs self) as [e|kwargs] eqn:Hkw.
  - apply (advances_weaken 0); [exact Htotal|]. apply advances_lift_bind_inl.
  - destruct (solve_minimizer_kwargs_spec self kwargs Hkw)
      as (_ & _ & _ & Hcb & _).
    apply advances_lift_bind_inr.
    apply (advances_weaken (0 + (0 + (0 + (total + 0))))); [lia|].
    apply advances_bind; [lia | apply advances_lift | intros ?].
    apply advances_bind; [lia | apply advances_lift | intros ?].
    apply advances_bind; [lia | apply advances_lift | intros ?].
    apply advances_bind; [lia | | intros; apply advances_ret].
    eapply advances_weaken;
      [|apply (advances_basinhopping _ _ _ _ _ _ _ _
                 (Z.to_nat (maxfeval self)) Hcb);
        intros from; by apply Hreports].
    subst total. rewrite !Z2Nat.id by assumption. lia.
Qed.

End with_collaborators.

Lemma solve_needs_two_rows_witness :
  fst (@solve examples.libm examples.minimizer more_examples.one_row
         examples.optimizer_world0) = inl IndexError.
Proof.
  rewrite (@solve_needs_two_rows examples.libm examples.minimizer
             more_examples.one_row examples.optimizer_world0);
    [reflexivity | cbn; lia].
Defined.

Lemma compass_reports (f : list Q -> Q) (cs : list Constraint) (tol : Q)
    (budget : nat) :
  forall (rho : Q) (x : list Q) (reported : list (list Q)),
    (length (snd (examples.compass f cs tol budget rho x reported))
     <= length reported + budget)%nat.
Proof.
  induction budget as [|budget IH]; intros rho x reported;
    cbn [examples.compass]; [cbn; lia|].
  destruct (Qle_bool (f x) _).
  - destruct (Qle_bool rho tol); [cbn; lia|].
    etransitivity; [apply IH | lia].
  - etransitivity; [apply IH|]. rewrite length_app. cbn. lia.
Qed.

Lemma compass_reports_at_most_maxfeval :
  @reports_at_most examples.libm examples.minimizer examples.boxed
    (Z.to_nat (maxfeval examples.boxed)).
Proof.
  intros kwargs start Hkw.
  destruct (@solve_minimizer_kwargs_spec examples.libm examples.boxed kwargs
              Hkw) as (_ & _ & _ & _ & options & Hopt & Hmaxiter & _).
  cbn [minimize examples.minimizer]. unfold examples.compass_minimize.
  rewrite Hopt, Hmaxiter.
  match goal with
  | |- context [examples.compass ?f ?cs ?tol ?b ?rho ?x0 ?rep] =>
      pose proof (compass_reports f cs tol b rho x0 rep) as Hlen;
      destruct (examples.compass f cs tol b rho x0 rep) as [found reported]
  end.
  cbn [snd length] in *. lia.
Qed.

Lemma solve_progress_within_total_witness :
  tqdm.total (pbar (snd (@solve examples.libm examples.minimizer
                           examples.boxed examples.optimizer_world0)))
  = 180%Z
  /\ (0 <= tqdm.n (pbar (snd (@solve examples.libm examples.minimizer
                                examples.boxed examples.optimizer_world0)))
      <= 180)%Z.
Proof.
  apply (@solve_progress_within_total examples.libm examples.minimizer
           examples.boxed examples.optimizer_world0).
  - cbn. lia.
  - cbn. lia.
  - exact compass_reports_at_most_maxfeval.
Defined.

End optimizer_edges.
